(** * The Animal aggregate of animal_records

    A shallow embedding of [src/domain/animal/entities/animal.py]: the
    aggregate is a record, every method is a computation in a small
    state-and-exception monad over that record, and Python's list primitives
    ([index], [remove], [in], [count], subscripting) are written out with the
    behaviour they have on out-of-range or absent arguments.

    The elements of the two lists are values. The aggregate only ever appends
    objects it has just created, so no object sits at two positions and the
    in-place update of [l[i]] changes position [i] alone. *)

From Stdlib Require Import ZArith QArith.
From stdpp Require Import base decidable option list numbers.

Local Open Scope Z_scope.

(** ** Value objects *)

(** Modelled from the spec: the enum [LifeStatus] (value_objects/life_status.py
    is not part of the sources); the spec gives it the members ALIVE and
    DEAD, and animal.py tests for [LifeStatus.DEAD]. *)
Inductive LifeStatus : Type := ALIVE | DEAD.

(** Modelled from the spec: the enum [Gender] (value_objects/gender.py is not
    part of the sources). The aggregate stores a gender and never inspects it;
    the members stand for those of the enum. *)
Inductive Gender : Type := MALE | FEMALE | OTHER.

#[global] Instance LifeStatus_eq_dec : EqDecision LifeStatus.
Proof. solve_decision. Defined.

#[global] Instance Gender_eq_dec : EqDecision Gender.
Proof. solve_decision. Defined.

(** [datetime] values are only stored and copied; a count of seconds is
    enough to tell two of them apart. The three measures of an animal are
    floats that are only stored and copied as well; they are rationals here. *)
Definition datetime : Type := Z.

(** ** Entities held by the aggregate *)

Module AnimalVisitedLocation.
(** Modelled from the spec: the dataclass [AnimalVisitedLocation]
    (animal_visited_location.py is not part of the sources). The spec gives
    it an identity, the referenced location-point id and the visit
    timestamp. The identity is absent ([None]) for an entry that
    [add_visited_location] has just created, as [create] is called there
    without an id. Equality is the dataclass one, field by field. *)
Record t : Type := mk {
  id : option Z;
  location_point_id : Z;
  datetime_of_visit : datetime
}.

#[global] Instance eq_dec : EqDecision t.
Proof. solve_decision. Defined.

(** Modelled from the spec: [AnimalVisitedLocation.create], called in
    animal.py with a point and a timestamp only. *)
Definition create (location_point_id : Z) (datetime_of_visit : datetime) : t :=
  mk None location_point_id datetime_of_visit.

(** Modelled from the spec: [AnimalVisitedLocation.update], which
    overwrites the location id of the entry and nothing else. *)
Definition update (location_point_id : Z) (self : t) : t :=
  mk (id self) location_point_id (datetime_of_visit self).
End AnimalVisitedLocation.

Module TypeOfSpecificAnimal.
(** Modelled from the spec: the dataclass [TypeOfSpecificAnimal]
    (type_of_specific_animal.py is not part of the sources): it wraps a
    type id and two tags are equal when their type ids are. *)
Record t : Type := mk {
  animal_type_id : Z
}.

#[global] Instance eq_dec : EqDecision t.
Proof. solve_decision. Defined.

(** Modelled from the spec: [TypeOfSpecificAnimal.create]. *)
Definition create (animal_type_id : Z) : t := mk animal_type_id.

(** Modelled from the spec: [TypeOfSpecificAnimal.update], which
    overwrites the wrapped type id. *)
Definition update (new_type_id : Z) (self : t) : t := mk new_type_id.
End TypeOfSpecificAnimal.

(** ** Exceptions *)

(** Modelled from the spec: the domain errors animal.py imports (the
    exceptions packages are not part of the sources), each with the animal id
    and the secondary ids it is raised with in animal.py. *)
Inductive DomainError : Type :=
  | AnimalIsDead (animal : option Z)
  | LocationPointEqualToChippingLocation (animal : option Z) (point : Z)
  | AnimalHasNoCurrentVisitedLocation (animal : option Z) (visited : Z)
  | NextOfPreviousEqualThisLocation (animal : option Z) (point : Z)
  | UpdateToSameLocationPoint (animal : option Z) (point : Z)
  | UpdatedFirstPointToChippingPoint (animal : option Z) (point : Z)
  | AnimalNowInThisPoint (animal : option Z) (point : Z)
  | AnimalAlreadyHaveThisType (animal : option Z) (type_id : Z)
  | AnimalNotHaveThisType (animal : option Z) (type_id : Z)
  | AnimalOnlyHasThisType (animal : option Z) (type_id : Z)
  | AnimalAlreadyHaveThisTypes (animal : option Z) (old_type new_type : Z).

(** What a method can raise: a domain error, or one of the two built-in
    errors of the list primitives. *)
Inductive Exception : Type :=
  | Domain (e : DomainError)
  | ValueError
  | IndexError.

(** ** Python's list primitives *)

Section PyList.
Context {A : Type} `{EqDecision A}.

(** The loop of [l.index(x)]: position of the first element equal to [x]. *)
Fixpoint index_of (l : list A) (x : A) : option nat :=
  match l with
  | [] => None
  | y :: l' => if decide (y = x) then Some O else S <$> index_of l' x
  end.

(** [l.index(x)]; [None] stands for the [ValueError] raised when no element
    is equal to [x]. *)
Definition py_index (l : list A) (x : A) : option Z :=
  Z.of_nat <$> index_of l x.

(** [l.remove(x)]: drops the first element equal to [x]; [None] stands
    for the [ValueError] raised when there is none. *)
Fixpoint py_remove (l : list A) (x : A) : option (list A) :=
  match l with
  | [] => None
  | y :: l' => if decide (y = x) then Some l' else cons y <$> py_remove l' x
  end.

(** [x in l]. *)
Definition py_in (x : A) (l : list A) : bool :=
  bool_decide (x ∈ l).

(** [l.count(x)]. *)
Definition py_count (l : list A) (x : A) : Z :=
  Z.of_nat (base.length (filter (λ y, y = x) l)).

(** The position a subscript [l[i]] denotes: a negative [i] counts from the
    end; [None] stands for the [IndexError] raised out of range. *)
Definition py_position (l : list A) (i : Z) : option nat :=
  let n := Z.of_nat (base.length l) in
  let j := if bool_decide (i < 0) then i + n else i in
  if bool_decide (0 ≤ j < n) then Some (Z.to_nat j) else None.

(** [l[i]]. *)
Definition py_getitem (l : list A) (i : Z) : option A :=
  py_position l i ≫= λ n, l !! n.

(** [l[i].update(...)], a change [f] of the object held at [l[i]]. *)
Definition py_mutate_item (f : A → A) (l : list A) (i : Z) : option (list A) :=
  (λ n, alter f n l) <$> py_position l i.

(** [len(l)]. *)
Definition len (l : list A) : Z := Z.of_nat (base.length l).
End PyList.

(** ** The aggregate *)

(** Modelled from the spec: an argument of [update] is [Empty.UNSET], its
    default (common/constants/empty.py is not part of the sources), or a
    value that was explicitly supplied. *)
Inductive OrEmpty (A : Type) : Type :=
  | UNSET
  | Given (a : A).
Arguments UNSET {A}.
Arguments Given {A} a.

Module Animal.

(** The dataclass [Animal]. [id] and [life_status] may be [None], the defaults
    of [create]. *)
Record t : Type := mk {
  id : option Z;
  animal_types : list TypeOfSpecificAnimal.t;
  weight : Q;
  length : Q;
  height : Q;
  gender : Gender;
  life_status : option LifeStatus;
  chipping_datetime : option datetime;
  chipping_location_id : Z;
  chipper_id : Z;
  visited_locations : list AnimalVisitedLocation.t;
  death_datetime : option datetime
}.

(** ** The monad of methods *)

(** A method runs on [self], may change it, and either returns or raises. The
    aggregate that is left when it raises is part of the result. *)
Definition Method (R : Type) : Type := t → (Exception + R) * t.

#[global] Instance Method_ret : MRet Method :=
  λ R (r : R) self, (inr r, self).

#[global] Instance Method_bind : MBind Method :=
  λ R S (k : R → Method S) (m : Method R) self,
    match m self with
    | (inl e, self') => (inl e, self')
    | (inr r, self') => k r self'
    end.

Definition this : Method t := λ self, (inr self, self).

Definition raise {R : Type} (e : DomainError) : Method R :=
  λ self, (inl (Domain e), self).

Definition raise_builtin {R : Type} (e : Exception) : Method R :=
  λ self, (inl e, self).

(** A list primitive that raises [e] when it has no result. *)
Definition or_raise {R : Type} (e : Exception) (o : option R) : Method R :=
  match o with
  | Some r => mret r
  | None => raise_builtin e
  end.

Definition set_animal_types (l : list TypeOfSpecificAnimal.t) : Method unit :=
  λ self,
    (inr (),
     mk (id self) l (weight self) (length self) (height self)
        (gender self) (life_status self) (chipping_datetime self)
        (chipping_location_id self) (chipper_id self)
        (visited_locations self) (death_datetime self)).

Definition set_visited_locations (l : list AnimalVisitedLocation.t)
  : Method unit :=
  λ self,
    (inr (),
     mk (id self) (animal_types self) (weight self) (length self)
        (height self) (gender self) (life_status self)
        (chipping_datetime self) (chipping_location_id self)
        (chipper_id self) l (death_datetime self)).

Definition set_death (d : option datetime) : Method unit :=
  λ self,
    (inr (),
     mk (id self) (animal_types self) (weight self) (length self)
        (height self) (gender self) (life_status self)
        (chipping_datetime self) (chipping_location_id self)
        (chipper_id self) (visited_locations self) d).

(** ** Partial updates *)

(** The keyword dictionary [update] hands to [_merge], under the keys it is
    built with; a key that is absent is [None]. *)
Record Kwargs : Type := mkKwargs {
  kw_weight : option Q;
  kw_length : option Q;
  kw_height : option Q;
  kw_gender : option Gender;
  kw_life_status : option LifeStatus;
  kw_chipper : option Z;
  kw_chipping_location : option Z;
  kw_animal_types : option (list TypeOfSpecificAnimal.t);
  kw_visited_locations : option (list AnimalVisitedLocation.t)
}.

(** Modelled from the spec: [data_filter] (common/utils/data_filter.py is not
    part of the sources) keeps the arguments that were explicitly supplied and
    drops the unset ones. *)
Definition data_filter_arg {A : Type} (a : OrEmpty A) : option A :=
  match a with
  | UNSET => None
  | Given a => Some a
  end.

(** Modelled from the spec: [EntityMerge._merge] (common/entities/entity_merge.py
    is not part of the sources). Only the supplied fields are applied and the
    others are left unchanged; a supplied list is appended to the list the
    aggregate holds, which is how [add_animal_type] and
    [add_visited_location] append their single new element. The keys
    [chipper] and [chipping_location] stand for the chipper and the chip-in
    location. *)
Definition _merge (kw : Kwargs) : Method unit :=
  λ self,
    (inr (),
     mk (id self)
        (animal_types self ++ default [] (kw_animal_types kw))
        (default (weight self) (kw_weight kw))
        (default (length self) (kw_length kw))
        (default (height self) (kw_height kw))
        (default (gender self) (kw_gender kw))
        (from_option Some (life_status self) (kw_life_status kw))
        (chipping_datetime self)
        (default (chipping_location_id self) (kw_chipping_location kw))
        (default (chipper_id self) (kw_chipper kw))
        (visited_locations self ++ default [] (kw_visited_locations kw))
        (death_datetime self)).

(** ** Methods of [Animal] *)

Definition create (animal_types : list TypeOfSpecificAnimal.t)
    (weight length height : Q) (gender : Gender)
    (chipping_location_id chipper_id : Z)
    (life_status : option LifeStatus) (chipping_datetime : option datetime)
    (animal_id : option Z)
    (visited_locations : option (list AnimalVisitedLocation.t))
    (death_datetime : option datetime) : t :=
  mk animal_id animal_types weight length height gender life_status
     chipping_datetime chipping_location_id chipper_id
     (match visited_locations with
      | Some (v :: l) => v :: l
      | _ => []
      end)
     death_datetime.

Definition update (weight length height : OrEmpty Q) (gender : OrEmpty Gender)
    (life_status : OrEmpty LifeStatus)
    (chipper_id chipping_location_id : OrEmpty Z)
    (animal_types : OrEmpty (list TypeOfSpecificAnimal.t))
    (visited_locations : OrEmpty (list AnimalVisitedLocation.t))
  : Method unit :=
  let filtered_args :=
    mkKwargs (data_filter_arg weight) (data_filter_arg length)
             (data_filter_arg height) (data_filter_arg gender)
             (data_filter_arg life_status) (data_filter_arg chipper_id)
             (data_filter_arg chipping_location_id)
             (data_filter_arg animal_types)
             (data_filter_arg visited_locations) in
  _merge filtered_args.

(** [datetime.utcnow()] is the argument [now]. *)
Definition set_death_datetime (now : datetime) : Method unit :=
  self ← this;
  if decide (life_status self = Some DEAD)
  then set_death (Some now)
  else mret ().

Fixpoint first_duplicate (all rest : list TypeOfSpecificAnimal.t)
  : option TypeOfSpecificAnimal.t :=
  match rest with
  | [] => None
  | type_of_this_animal :: rest' =>
      if bool_decide (1 < py_count all type_of_this_animal)
      then Some type_of_this_animal
      else first_duplicate all rest'
  end.

Definition check_duplicate_types : Method (option TypeOfSpecificAnimal.t) :=
  self ← this;
  mret (first_duplicate (animal_types self) (animal_types self)).

(** The loop of [_get_visited_location]. *)
Fixpoint find_visited_location (locations : list AnimalVisitedLocation.t)
    (visited_location_id : Z) : option AnimalVisitedLocation.t :=
  match locations with
  | [] => None
  | location :: locations' =>
      if decide (AnimalVisitedLocation.id location = Some visited_location_id)
      then Some location
      else find_visited_location locations' visited_location_id
  end.

Definition _get_visited_location (visited_location_id : Z)
  : Method AnimalVisitedLocation.t :=
  self ← this;
  match find_visited_location (visited_locations self) visited_location_id with
  | Some location => mret location
  | None =>
      raise (AnimalHasNoCurrentVisitedLocation (id self) visited_location_id)
  end.

(** The loop shared by [_check_exist_animal_type] and [_get_animal_type]. *)
Fixpoint find_animal_type (types : list TypeOfSpecificAnimal.t)
    (animal_type_id : Z) : option TypeOfSpecificAnimal.t :=
  match types with
  | [] => None
  | animal_type :: types' =>
      if decide (TypeOfSpecificAnimal.animal_type_id animal_type
                 = animal_type_id)
      then Some animal_type
      else find_animal_type types' animal_type_id
  end.

Definition _check_exist_animal_type (animal_type_id : Z) : Method bool :=
  self ← this;
  mret (bool_decide
          (is_Some (find_animal_type (animal_types self) animal_type_id))).

Definition _get_animal_type (animal_type_id : Z)
  : Method TypeOfSpecificAnimal.t :=
  self ← this;
  match find_animal_type (animal_types self) animal_type_id with
  | Some animal_type => mret animal_type
  | None => raise (AnimalNotHaveThisType (id self) animal_type_id)
  end.

Definition add_animal_type (type_id : Z) : Method unit :=
  self ← this;
  let type_of_this_animal := TypeOfSpecificAnimal.create type_id in
  if py_in type_of_this_animal (animal_types self)
  then raise (AnimalAlreadyHaveThisType
                (id self)
                (TypeOfSpecificAnimal.animal_type_id type_of_this_animal))
  else update UNSET UNSET UNSET UNSET UNSET UNSET UNSET
              (Given [type_of_this_animal]) UNSET.

Definition add_visited_location (now : datetime) (location_point_id : Z)
  : Method unit :=
  self ← this;
  (if decide (life_status self = Some DEAD)
   then raise (AnimalIsDead (id self))
   else if decide (chipping_location_id self = location_point_id)
   then raise (LocationPointEqualToChippingLocation (id self)
                                                    location_point_id)
   else if bool_decide (visited_locations self ≠ [])
   then
     last_location ← or_raise IndexError
                       (py_getitem (visited_locations self) (-1));
     if decide (AnimalVisitedLocation.location_point_id last_location
                = location_point_id)
     then raise (AnimalNowInThisPoint (id self) location_point_id)
     else mret ()
   else mret ());;
  let visited_location := AnimalVisitedLocation.create location_point_id now in
  update UNSET UNSET UNSET UNSET UNSET UNSET UNSET UNSET
         (Given [visited_location]).

Definition change_animal_type (old_type_int new_type_id : Z) : Method unit :=
  exist_old_type ← _check_exist_animal_type old_type_int;
  exist_new_type ← _check_exist_animal_type new_type_id;
  self ← this;
  (if exist_old_type && exist_new_type
   then raise (AnimalAlreadyHaveThisTypes (id self) old_type_int new_type_id)
   else if exist_new_type
   then raise (AnimalAlreadyHaveThisType (id self) new_type_id)
   else mret ());;
  animal_type ← _get_animal_type old_type_int;
  index_animal_type ← or_raise ValueError
                        (py_index (animal_types self) animal_type);
  types ← or_raise IndexError
            (py_mutate_item (TypeOfSpecificAnimal.update new_type_id)
                            (animal_types self) index_animal_type);
  set_animal_types types.

Definition change_visited_location (visited_location_id new_location_point_id : Z)
  : Method AnimalVisitedLocation.t :=
  visited_location ← _get_visited_location visited_location_id;
  self ← this;
  location_index ← or_raise ValueError
                     (py_index (visited_locations self) visited_location);
  (if decide (AnimalVisitedLocation.location_point_id visited_location
              = new_location_point_id)
   then raise (UpdateToSameLocationPoint
                 (id self) (AnimalVisitedLocation.location_point_id visited_location))
   else if bool_decide (location_index ≠ 0
                        ∧ location_index ≠ len (visited_locations self) - 1)
   then
     next_element ← or_raise IndexError
                      (py_getitem (visited_locations self) (location_index + 1));
     previous_element ← or_raise IndexError
                          (py_getitem (visited_locations self) (location_index - 1));
     if decide (AnimalVisitedLocation.location_point_id next_element
                = new_location_point_id)
     then raise (NextOfPreviousEqualThisLocation
                   (id self) (AnimalVisitedLocation.location_point_id visited_location))
     else if decide (AnimalVisitedLocation.location_point_id previous_element
                     = new_location_point_id)
     then raise (NextOfPreviousEqualThisLocation
                   (id self) (AnimalVisitedLocation.location_point_id visited_location))
     else mret ()
   else if bool_decide (location_index = 0
                        ∧ new_location_point_id = chipping_location_id self)
   then raise (UpdatedFirstPointToChippingPoint
                 (id self) (AnimalVisitedLocation.location_point_id visited_location))
   else mret ());;
  locations ← or_raise IndexError
                (py_mutate_item (AnimalVisitedLocation.update new_location_point_id)
                                (visited_locations self) location_index);
  set_visited_locations locations;;
  self ← this;
  or_raise IndexError (py_getitem (visited_locations self) location_index).

Definition delete_visited_location (visited_location_id : Z) : Method unit :=
  visited_location ← _get_visited_location visited_location_id;
  self ← this;
  index_visited_location ← or_raise ValueError
                             (py_index (visited_locations self) visited_location);
  (if decide (index_visited_location + 1 ≠ len (visited_locations self))
   then
     next_visited_location ← or_raise IndexError
                               (py_getitem (visited_locations self)
                                           (index_visited_location + 1));
     if bool_decide (index_visited_location = 0
                     ∧ AnimalVisitedLocation.location_point_id next_visited_location
                       = chipping_location_id self)
     then
       locations ← or_raise ValueError
                     (py_remove (visited_locations self) next_visited_location);
       set_visited_locations locations
     else mret ()
   else mret ());;
  self ← this;
  locations ← or_raise ValueError
                (py_remove (visited_locations self) visited_location);
  set_visited_locations locations.

Definition delete_animal_type (animal_type_id : Z) : Method unit :=
  type_of_this_animal ← _get_animal_type animal_type_id;
  self ← this;
  only_this_type ←
    (if decide (len (animal_types self) = 1)
     then
       first_type ← or_raise IndexError (py_getitem (animal_types self) 0);
       mret (bool_decide (first_type = type_of_this_animal))
     else mret false);
  if only_this_type : bool
  then raise (AnimalOnlyHasThisType
                (id self) (TypeOfSpecificAnimal.animal_type_id type_of_this_animal))
  else if negb (py_in type_of_this_animal (animal_types self))
  then raise (AnimalNotHaveThisType
                (id self) (TypeOfSpecificAnimal.animal_type_id type_of_this_animal))
  else
    types ← or_raise ValueError
              (py_remove (animal_types self) type_of_this_animal);
    set_animal_types types.

End Animal.

(** * The mapper *)

(** [src/infrastructure/mapper/mapper.py]. The mapper keeps the converters it
    was given in the order they were added and serves a request with the
    first one that accepts it. *)

Module Converter.
(** The class [Converter] of infrastructure/mapper/converter.py is not part of
    the sources and is taken as a parameter: [init] is its constructor with
    the arguments [from_model], [to_mode] and [func] that [Mapper.add] passes,
    [check] and [convert] are its two methods. [Model] is what [FromModel] and
    [ToModel] range over, [type_of] is Python's [type], and [Converted] is
    whatever a call of [convert] ends in. *)
Class Interface : Type := {
  Model : Type;
  Object : Type;
  Callable : Type;
  Converted : Type;
  type_of : Object → Model;
  t : Type;
  init : Model → Model → Callable → t;
  check : t → Model → Model → bool;
  convert : t → Object → Converted
}.
End Converter.

Module Mapper.
Section Methods.
Context `{Converter.Interface}.

(** The state of a mapper is its list [_converters]. *)
Definition t : Type := list Converter.t.

Definition __init__ : t := [].

Definition add (from_model to_model : Converter.Model)
    (func : Converter.Callable) (self : t) : t :=
  self ++ [Converter.init from_model to_model func].

(** The loop of [_get_converter]; [None] is the [None] a Python function
    returns when it falls off its end. *)
Fixpoint _get_converter (from_model to_model : Converter.Model) (self : t)
  : option Converter.t :=
  match self with
  | [] => None
  | converter :: converters =>
      if Converter.check converter from_model to_model
      then Some converter
      else _get_converter from_model to_model converters
  end.

(** [load] returns what [convert] returns, or [None] when [_get_converter]
    found nothing; a converter is an object and as such true in [if
    converter]. *)
Definition load (class_ : Converter.Model) (data : Converter.Object) (self : t)
  : option Converter.Converted :=
  match _get_converter (Converter.type_of data) class_ self with
  | Some converter => Some (Converter.convert converter data)
  | None => None
  end.
End Methods.
End Mapper.

(** * The error parser *)

(** [src/infrastructure/database/error_parser/error_parser.py]. *)

Module ExceptionReturner.
(** The class [ExceptionReturner] of error_parser/exception_returner.py is not
    part of the sources and is taken as a parameter: [init] is its
    constructor with the arguments [func], [database_column] and [entity]
    that [add_exception_returner] passes, [check] and [return_exception] are
    its two methods. [constraint_name] is the value of
    [exception.__cause__.__cause__.constraint_name], [None] when reading one
    of the three attributes raises [AttributeError]. *)
Class Interface : Type := {
  EntityType : Type;
  Entity : Type;
  Column : Type;
  Callable : Type;
  Returned : Type;
  IntegrityError : Type;
  type_of : Entity → EntityType;
  constraint_name : IntegrityError → option Column;
  t : Type;
  init : Callable → Column → EntityType → t;
  check : t → Column → EntityType → bool;
  return_exception : t → Entity → Returned
}.
End ExceptionReturner.

Module ErrorParser.
Section Methods.
Context `{ExceptionReturner.Interface}.

(** The state of an error parser is its list [_exception_returners]. *)
Definition t : Type := list ExceptionReturner.t.

Definition __init__ : t := [].

(** The loop of [_get_returner]; [None] is the [None] a Python function
    returns when it falls off its end. *)
Fixpoint _get_returner (entity : ExceptionReturner.EntityType)
    (database_column : ExceptionReturner.Column) (self : t)
  : option ExceptionReturner.t :=
  match self with
  | [] => None
  | returner :: returners =>
      if ExceptionReturner.check returner database_column entity
      then Some returner
      else _get_returner entity database_column returners
  end.

Definition add_exception_returner (entity : ExceptionReturner.EntityType)
    (func : ExceptionReturner.Callable)
    (database_column : ExceptionReturner.Column) (self : t) : t :=
  self ++ [ExceptionReturner.init func database_column entity].

(** What a call of [parse_error] ends in: the value of [return_exception], or
    the [AttributeError] of an attribute read on an object that lacks it. *)
Inductive Outcome : Type :=
  | Return (r : ExceptionReturner.Returned)
  | AttributeError.

Definition parse_error (entity : ExceptionReturner.Entity)
    (exception : ExceptionReturner.IntegrityError) (self : t) : Outcome :=
  match ExceptionReturner.constraint_name exception with
  | None => AttributeError
  | Some database_column =>
      match _get_returner (ExceptionReturner.type_of entity) database_column
                          self with
      | Some returner =>
          Return (ExceptionReturner.return_exception returner entity)
      | None => AttributeError
      end
  end.
End Methods.
End ErrorParser.

(** * Vocabulary of the properties *)

(** [x] sits at position [i] of [l], satisfies [P], and no earlier element
    does: the element a first-match loop stops at. *)
Definition first_such {A : Type} (P : A → Prop) (l : list A) (i : nat) (x : A)
  : Prop :=
  l !! i = Some x ∧ P x ∧ ∀ j y, (j < i)%nat → l !! j = Some y → ¬ P y.

Abbreviation point := AnimalVisitedLocation.location_point_id.
Abbreviation type_id := TypeOfSpecificAnimal.animal_type_id.

(** The entry carries the visited-location id [k]. *)
Definition has_id (k : Z) (v : AnimalVisitedLocation.t) : Prop :=
  AnimalVisitedLocation.id v = Some k.

(** The tag wraps the type id [k]. *)
Definition has_type (k : Z) (t : TypeOfSpecificAnimal.t) : Prop :=
  type_id t = k.

#[global] Instance has_id_dec k v : Decision (has_id k v).
Proof. unfold has_id. apply _. Defined.

#[global] Instance has_type_dec k t : Decision (has_type k t).
Proof. unfold has_type. apply _. Defined.

(** [self] with the visited-location list replaced. *)
Definition with_visited_locations (l : list AnimalVisitedLocation.t)
    (self : Animal.t) : Animal.t :=
  Animal.mk (Animal.id self) (Animal.animal_types self) (Animal.weight self)
            (Animal.length self) (Animal.height self) (Animal.gender self)
            (Animal.life_status self) (Animal.chipping_datetime self)
            (Animal.chipping_location_id self) (Animal.chipper_id self)
            l (Animal.death_datetime self).

(** [self] with the tag list replaced. *)
Definition with_animal_types (l : list TypeOfSpecificAnimal.t)
    (self : Animal.t) : Animal.t :=
  Animal.mk (Animal.id self) l (Animal.weight self)
            (Animal.length self) (Animal.height self) (Animal.gender self)
            (Animal.life_status self) (Animal.chipping_datetime self)
            (Animal.chipping_location_id self) (Animal.chipper_id self)
            (Animal.visited_locations self) (Animal.death_datetime self).

(** An animal with id 1, chipped by chipper 9 at location [chip], in the given
    life status and with the given tags and visited locations. *)
Definition animal_at (status : LifeStatus) (chip : Z)
    (types : list TypeOfSpecificAnimal.t)
    (locations : list AnimalVisitedLocation.t) : Animal.t :=
  Animal.create types 1%Q 1%Q 1%Q MALE chip 9 (Some status) (Some 0) (Some 1)
                (Some locations) None.

(** The visited location with id [k] at point [p], seen at time 100. *)
Definition visit (k p : Z) : AnimalVisitedLocation.t :=
  AnimalVisitedLocation.mk (Some k) p 100.

Abbreviation tag := TypeOfSpecificAnimal.mk.

(** An animal chipped at point 5 that went through points 7, 8 and 9. *)
Definition traveller : Animal.t :=
  animal_at ALIVE 5 [tag 1; tag 2] [visit 1 7; visit 2 8; visit 3 9].

(** The list [delete_visited_location] leaves when its target is at position
    [i]: without the target, and without the entry after it when the target is
    the first entry and that entry is at the chip-in location. *)
Definition without_visit (chip : Z) (i : nat) (l : list AnimalVisitedLocation.t)
  : list AnimalVisitedLocation.t :=
  match i, l !! 1%nat with
  | O, Some w => if decide (point w = chip) then drop 2 l else delete 0%nat l
  | _, _ => delete i l
  end.

(** The animal of the scenario: chipped at point 5, seen at point 7 and then
    back at point 5. *)
Definition returned : Animal.t :=
  animal_at ALIVE 5 [tag 1] [visit 1 7; visit 2 5].

Definition no_adjacent_duplicates (l : list AnimalVisitedLocation.t) : Prop :=
  ∀ i v w, l !! i = Some v → l !! S i = Some w → point v ≠ point w.

(** An animal chipped at point 5 that went to point 7, to point 8 and back to
    point 7. *)
Definition commuter : Animal.t :=
  animal_at ALIVE 5 [tag 1] [visit 1 7; visit 2 8; visit 3 7].

(** Some tag of [l] wraps the type id [k]. *)
Definition has_tag (k : Z) (l : list TypeOfSpecificAnimal.t) : Prop :=
  ∃ t, t ∈ l ∧ has_type k t.

(** An animal whose only tag is type 1. *)
Definition single_tagged : Animal.t := animal_at ALIVE 5 [tag 1] [].

(** A time of death is recorded exactly for a dead animal. *)
Definition death_recorded_iff_dead (self : Animal.t) : Prop :=
  is_Some (Animal.death_datetime self) ↔ Animal.life_status self = Some DEAD.

(** [self] in another life status. *)
Definition with_life_status (status : option LifeStatus) (self : Animal.t)
  : Animal.t :=
  Animal.mk (Animal.id self) (Animal.animal_types self) (Animal.weight self)
            (Animal.length self) (Animal.height self) (Animal.gender self)
            status (Animal.chipping_datetime self)
            (Animal.chipping_location_id self) (Animal.chipper_id self)
            (Animal.visited_locations self) (Animal.death_datetime self).

(** The first visited location, when there is one, is not at the chip-in
    location [chip]. *)
Definition first_not_chip (chip : Z) (l : list AnimalVisitedLocation.t)
  : Prop :=
  ∀ v, l !! 0%nat = Some v → point v ≠ chip.

(** At most one entry of [l] carries the visited-location id [k]. *)
Definition id_at_most_once (k : Z) (l : list AnimalVisitedLocation.t) : Prop :=
  ∀ i j v w, l !! i = Some v → l !! j = Some w → has_id k v → has_id k w →
             i = j.

(** [x] sits at two positions of [l]. *)
Definition occurs_twice {A : Type} (l : list A) (x : A) : Prop :=
  ∃ i j, i ≠ j ∧ l !! i = Some x ∧ l !! j = Some x.

(** The animal id a domain error was raised with. *)
Definition error_animal (e : DomainError) : option Z :=
  match e with
  | AnimalIsDead a
  | LocationPointEqualToChippingLocation a _
  | AnimalHasNoCurrentVisitedLocation a _
  | NextOfPreviousEqualThisLocation a _
  | UpdateToSameLocationPoint a _
  | UpdatedFirstPointToChippingPoint a _
  | AnimalNowInThisPoint a _
  | AnimalAlreadyHaveThisType a _
  | AnimalNotHaveThisType a _
  | AnimalOnlyHasThisType a _
  | AnimalAlreadyHaveThisTypes a _ _ => a
  end.


(** An exception-returner class to run the error parser on: entity types and
    columns are numbers, an entity is a type and a value, an integrity error
    has a constraint name or none, a returner accepts the one column and
    entity type it was built with and applies its function to the value. *)
Definition plain_returners : ExceptionReturner.Interface :=
  {| ExceptionReturner.EntityType := nat;
     ExceptionReturner.Entity := nat * Z;
     ExceptionReturner.Column := nat;
     ExceptionReturner.Callable := Z → Z;
     ExceptionReturner.Returned := Z;
     ExceptionReturner.IntegrityError := option nat;
     ExceptionReturner.type_of := fst;
     ExceptionReturner.constraint_name := λ exception, exception;
     ExceptionReturner.t := (Z → Z) * nat * nat;
     ExceptionReturner.init := λ func database_column entity,
       (func, database_column, entity);
     ExceptionReturner.check := λ self database_column entity,
       bool_decide (self.1.2 = database_column ∧ self.2 = entity);
     ExceptionReturner.return_exception := λ self entity, self.1.1 entity.2 |}.

(** * Properties *)

(** ** Positions in a list *)

Section PyListFacts.
Context {A : Type} `{EqDecision A}.
Implicit Types (l : list A) (x y : A) (i n : nat).

Lemma first_such_cons_0 (P : A → Prop) l x : P x → first_such P (x :: l) 0 x.
Proof. intros HP. split; [done|]. split; [done|]. intros j y Hj. lia. Qed.

Lemma first_such_cons_S (P : A → Prop) l x y i :
  ¬ P y → first_such P l i x → first_such P (y :: l) (S i) x.
Proof.
  intros Hy (Hi & HP & Hlt). split; [done|]. split; [done|].
  intros [|j] z Hj Hz; simplify_eq/=; [done|].
  apply (Hlt j z); [lia|done].
Qed.

Lemma first_such_tail (P : A → Prop) l x y i :
  first_such P (y :: l) (S i) x → ¬ P y ∧ first_such P l i x.
Proof.
  intros (Hi & HP & Hlt). split.
  - apply (Hlt 0%nat y); [lia|done].
  - split; [done|]. split; [done|].
    intros j z Hj Hz. apply (Hlt (S j) z); [lia|done].
Qed.

Lemma first_such_lt (P : A → Prop) l i x :
  first_such P l i x → (i < length l)%nat.
Proof. intros (Hi & _). by eapply lookup_lt_Some. Qed.

(** A first-match loop either finds nothing or stops at a first match. *)
Lemma first_such_total (P : A → Prop) `{∀ x, Decision (P x)} l :
  (∀ x, x ∈ l → ¬ P x) ∨ ∃ i x, first_such P l i x.
Proof.
  induction l as [|y l IH].
  - left. intros x Hx. by apply not_elem_of_nil in Hx.
  - destruct (decide (P y)) as [Hy|Hy].
    + right. exists 0%nat, y. by apply first_such_cons_0.
    + destruct IH as [IH|(i & x & IH)].
      * left. intros x [->|Hx]%elem_of_cons; auto.
      * right. exists (S i), x. by apply first_such_cons_S.
Qed.

Lemma first_such_unique (P : A → Prop) l i j x y :
  first_such P l i x → first_such P l j y → i = j ∧ x = y.
Proof.
  intros (Hi & HPx & Hlti) (Hj & HPy & Hltj).
  assert (i = j) as ->.
  { destruct (Nat.lt_trichotomy i j) as [Hlt|[->|Hlt]]; [|done|].
    - by destruct (Hltj i x Hlt Hi).
    - by destruct (Hlti j y Hlt Hj). }
  split; [done|]. congruence.
Qed.

(** [index] and [remove] look for the first element equal to their
    argument. *)
Lemma index_of_first l i x :
  first_such (λ y, y = x) l i x → index_of l x = Some i.
Proof.
  revert i. induction l as [|y l IH]; intros i Hf.
  - by destruct Hf as (? & _).
  - destruct i as [|i]; simpl.
    + destruct Hf as (Hi & _). simplify_eq/=. by rewrite decide_True.
    + apply first_such_tail in Hf as (Hy & Hf).
      rewrite decide_False; [|done]. by rewrite (IH i Hf).
Qed.

Lemma py_remove_first l i x :
  first_such (λ y, y = x) l i x → py_remove l x = Some (delete i l).
Proof.
  revert i. induction l as [|y l IH]; intros i Hf.
  - by destruct Hf as (? & _).
  - destruct i as [|i]; simpl.
    + destruct Hf as (Hi & _). simplify_eq/=. by rewrite decide_True.
    + apply first_such_tail in Hf as (Hy & Hf).
      rewrite decide_False; [|done]. by rewrite (IH i Hf).
Qed.

(** An element found by a property finer than equality is also the first
    that is equal to itself. *)
Lemma first_such_eq (P : A → Prop) l i x :
  first_such P l i x → first_such (λ y, y = x) l i x.
Proof.
  intros (Hi & HP & Hlt). split; [done|]. split; [done|].
  intros j y Hj Hy ->. by apply (Hlt j x).
Qed.

Lemma py_position_nat l i :
  (i < length l)%nat → py_position l (Z.of_nat i) = Some i.
Proof.
  intros Hi. unfold py_position.
  repeat case_bool_decide; try lia. by rewrite Nat2Z.id.
Qed.

Lemma py_getitem_nat l i : py_getitem l (Z.of_nat i) = l !! i.
Proof.
  unfold py_getitem, py_position.
  repeat case_bool_decide; try lia; simpl.
  - by rewrite Nat2Z.id.
  - symmetry. apply lookup_ge_None. lia.
Qed.

Lemma py_getitem_last l : py_getitem l (-1) = list.last l.
Proof.
  unfold py_getitem, py_position.
  repeat case_bool_decide; try lia; simpl.
  - rewrite last_lookup. f_equal. lia.
  - destruct l; [done|]. simpl in *. lia.
Qed.

Lemma py_mutate_item_nat (f : A → A) l i :
  (i < length l)%nat → py_mutate_item f l (Z.of_nat i) = Some (alter f i l).
Proof. intros Hi. unfold py_mutate_item. by rewrite py_position_nat. Qed.

Lemma py_in_spec x l : py_in x l = true ↔ x ∈ l.
Proof. unfold py_in. apply bool_decide_eq_true. Qed.
End PyListFacts.

(** ** The lookups of the aggregate *)

Lemma find_visited_location_first l k i v :
  first_such (has_id k) l i v → Animal.find_visited_location l k = Some v.
Proof.
  revert i. induction l as [|w l IH]; intros i Hf.
  - by destruct Hf as (? & _).
  - destruct i as [|i]; simpl.
    + destruct Hf as (Hi & Hk & _). simplify_eq/=. by rewrite decide_True.
    + apply first_such_tail in Hf as (Hw & Hf).
      rewrite decide_False; [|done]. by apply (IH i).
Qed.

Lemma find_visited_location_none l k :
  (∀ v, v ∈ l → ¬ has_id k v) → Animal.find_visited_location l k = None.
Proof.
  induction l as [|w l IH]; intros Hno; [done|]. simpl.
  rewrite decide_False; [|apply Hno; left].
  apply IH. intros v Hv. apply Hno. by right.
Qed.

Lemma find_animal_type_first l k i t :
  first_such (has_type k) l i t → Animal.find_animal_type l k = Some t.
Proof.
  revert i. induction l as [|w l IH]; intros i Hf.
  - by destruct Hf as (? & _).
  - destruct i as [|i]; simpl.
    + destruct Hf as (Hi & Hk & _). simplify_eq/=. by rewrite decide_True.
    + apply first_such_tail in Hf as (Hw & Hf).
      rewrite decide_False; [|done]. by apply (IH i).
Qed.

Lemma find_animal_type_none l k :
  (∀ t, t ∈ l → ¬ has_type k t) → Animal.find_animal_type l k = None.
Proof.
  induction l as [|w l IH]; intros Hno; [done|]. simpl.
  rewrite decide_False; [|apply Hno; left].
  apply IH. intros v Hv. apply Hno. by right.
Qed.

(** ** Adding a visited location *)

(** The two ways the aggregate calls [update] append to one of its lists. *)
Lemma update_visited_locations l self :
  Animal.update UNSET UNSET UNSET UNSET UNSET UNSET UNSET UNSET (Given l) self
  = (inr (), with_visited_locations (Animal.visited_locations self ++ l) self).
Proof.
  unfold with_visited_locations, Animal.update, Animal._merge. simpl.
  by rewrite app_nil_r.
Qed.

Lemma update_animal_types l self :
  Animal.update UNSET UNSET UNSET UNSET UNSET UNSET UNSET (Given l) UNSET self
  = (inr (), with_animal_types (Animal.animal_types self ++ l) self).
Proof.
  unfold with_animal_types, Animal.update, Animal._merge. simpl.
  by rewrite app_nil_r.
Qed.

(** Unfolds the monad of methods down to pairs of an outcome and a state. *)
Ltac run :=
  unfold Animal._get_visited_location, Animal._get_animal_type,
    Animal._check_exist_animal_type, Animal.set_visited_locations,
    Animal.set_animal_types, Animal.set_death, Animal.or_raise, Animal.raise,
    Animal.raise_builtin, Animal.this, mbind, Animal.Method_bind, mret,
    Animal.Method_ret;
  simpl;
  rewrite ?update_visited_locations, ?update_animal_types.

(** The outcome of [add_visited_location], case by case. *)
Lemma add_visited_location_run now p self :
  Animal.add_visited_location now p self =
    if decide (Animal.life_status self = Some DEAD)
    then (inl (Domain (AnimalIsDead (Animal.id self))), self)
    else if decide (Animal.chipping_location_id self = p)
    then (inl (Domain (LocationPointEqualToChippingLocation (Animal.id self) p)),
          self)
    else match list.last (Animal.visited_locations self) with
         | Some v =>
             if decide (point v = p)
             then (inl (Domain (AnimalNowInThisPoint (Animal.id self) p)), self)
             else (inr (),
                   with_visited_locations
                     (Animal.visited_locations self
                        ++ [AnimalVisitedLocation.create p now]) self)
         | None =>
             (inr (),
              with_visited_locations
                (Animal.visited_locations self
                   ++ [AnimalVisitedLocation.create p now]) self)
         end.
Proof.
  unfold Animal.add_visited_location. run.
  repeat case_decide; try done.
  rewrite py_getitem_last.
  case_bool_decide as Hl.
  - destruct (list.last (Animal.visited_locations self)) as [v|] eqn:Hlast;
      simpl.
    + case_decide; by run.
    + by apply last_None in Hlast.
  - run. by rewrite Hl.
Qed.

(** C2: [add_visited_location p] raises [AnimalIsDead] on a dead animal;
    otherwise [LocationPointEqualToChippingLocation] when [p] is the chip-in
    location; otherwise [AnimalNowInThisPoint] when the list is not empty and
    its last entry is at [p]; otherwise it succeeds, and the only change is one
    new entry for [p], timestamped [now], after the entries there were. *)
Theorem add_visited_location_contract (self : Animal.t) (now : datetime) (p : Z) :
  (Animal.life_status self = Some DEAD →
   Animal.add_visited_location now p self
   = (inl (Domain (AnimalIsDead (Animal.id self))), self))
  ∧ (Animal.life_status self ≠ Some DEAD →
     Animal.chipping_location_id self = p →
     Animal.add_visited_location now p self
     = (inl (Domain (LocationPointEqualToChippingLocation (Animal.id self) p)),
        self))
  ∧ (Animal.life_status self ≠ Some DEAD →
     Animal.chipping_location_id self ≠ p →
     (∃ v, list.last (Animal.visited_locations self) = Some v ∧ point v = p) →
     Animal.add_visited_location now p self
     = (inl (Domain (AnimalNowInThisPoint (Animal.id self) p)), self))
  ∧ (Animal.life_status self ≠ Some DEAD →
     Animal.chipping_location_id self ≠ p →
     (∀ v, list.last (Animal.visited_locations self) = Some v → point v ≠ p) →
     Animal.add_visited_location now p self
     = (inr (),
        with_visited_locations
          (Animal.visited_locations self ++ [AnimalVisitedLocation.mk None p now])
          self)).
Proof.
  rewrite add_visited_location_run.
  repeat split.
  - intros Hdead. by rewrite decide_True.
  - intros Hlive Hchip. by rewrite decide_False, decide_True.
  - intros Hlive Hchip (v & Hlast & Hv).
    rewrite !decide_False, Hlast by done. by rewrite decide_True.
  - intros Hlive Hchip Hlast. rewrite !decide_False by done.
    destruct (list.last (Animal.visited_locations self)) as [v|]; [|done].
    rewrite decide_False; [done|]. by apply Hlast.
Qed.

Lemma add_visited_location_contract_witness :
  Animal.add_visited_location 55 9 (animal_at DEAD 5 [tag 1] [visit 1 7])
  = (inl (Domain (AnimalIsDead (Some 1))), animal_at DEAD 5 [tag 1] [visit 1 7])
  ∧ Animal.add_visited_location 55 5 (animal_at ALIVE 5 [tag 1] [visit 1 7])
    = (inl (Domain (LocationPointEqualToChippingLocation (Some 1) 5)),
       animal_at ALIVE 5 [tag 1] [visit 1 7])
  ∧ Animal.add_visited_location 55 7 (animal_at ALIVE 5 [tag 1] [visit 1 7])
    = (inl (Domain (AnimalNowInThisPoint (Some 1) 7)),
       animal_at ALIVE 5 [tag 1] [visit 1 7])
  ∧ Animal.add_visited_location 55 9 (animal_at ALIVE 5 [tag 1] [visit 1 7])
    = (inr (),
       animal_at ALIVE 5 [tag 1]
                 [visit 1 7; AnimalVisitedLocation.mk None 9 55]).
Proof.
  split; [|split; [|split]].
  - apply (add_visited_location_contract (animal_at DEAD 5 [tag 1] [visit 1 7])).
    reflexivity.
  - apply (add_visited_location_contract (animal_at ALIVE 5 [tag 1] [visit 1 7])).
    + discriminate.
    + reflexivity.
  - apply (add_visited_location_contract (animal_at ALIVE 5 [tag 1] [visit 1 7])).
    + discriminate.
    + discriminate.
    + exists (visit 1 7). split; reflexivity.
  - apply (add_visited_location_contract (animal_at ALIVE 5 [tag 1] [visit 1 7])).
    + discriminate.
    + discriminate.
    + intros v [= <-]. discriminate.
Defined.

(** ** Changing a visited location *)

Lemma alter_at_lookup {A : Type} (f : A → A) (l : list A) i x :
  l !! i = Some x → alter f i l = <[i := f x]> l.
Proof.
  revert i. induction l as [|y l IH]; intros [|i] Hi; simplify_eq/=; [done|].
  f_equal. by apply IH.
Qed.

Lemma change_visited_location_absent k p self :
  (∀ v, v ∈ Animal.visited_locations self → ¬ has_id k v) →
  Animal.change_visited_location k p self
  = (inl (Domain (AnimalHasNoCurrentVisitedLocation (Animal.id self) k)), self).
Proof.
  intros Hno. unfold Animal.change_visited_location. run.
  by rewrite (find_visited_location_none _ _ Hno).
Qed.

(** The outcome of [change_visited_location] on the entry its lookup finds. *)
Lemma change_visited_location_found k p self i v :
  first_such (has_id k) (Animal.visited_locations self) i v →
  Animal.change_visited_location k p self =
    let changed := AnimalVisitedLocation.update p v in
    let done := (inr changed,
                 with_visited_locations
                   (<[i := changed]> (Animal.visited_locations self)) self) in
    if decide (point v = p)
    then (inl (Domain (UpdateToSameLocationPoint (Animal.id self) (point v))),
          self)
    else if decide (i ≠ 0%nat ∧ S i ≠ length (Animal.visited_locations self))
    then match Animal.visited_locations self !! S i,
               Animal.visited_locations self !! pred i with
         | Some next_element, Some previous_element =>
             if decide (point next_element = p ∨ point previous_element = p)
             then (inl (Domain (NextOfPreviousEqualThisLocation
                                  (Animal.id self) (point v))), self)
             else done
         | _, _ => (inl IndexError, self)
         end
    else if decide (i = 0%nat ∧ p = Animal.chipping_location_id self)
    then (inl (Domain (UpdatedFirstPointToChippingPoint
                         (Animal.id self) (point v))), self)
    else done.
Proof.
  intros Hf. pose proof (first_such_lt _ _ _ _ Hf) as Hlt.
  assert (Hi : Animal.visited_locations self !! i = Some v) by apply Hf.
  unfold Animal.change_visited_location. run.
  rewrite (find_visited_location_first _ _ _ _ Hf). simpl.
  unfold py_index. rewrite (index_of_first _ _ _ (first_such_eq _ _ _ _ Hf)).
  simpl. unfold len.
  assert (Hdone : ∀ r, r = alter (AnimalVisitedLocation.update p) i
                             (Animal.visited_locations self) →
    py_getitem r (Z.of_nat i) = Some (AnimalVisitedLocation.update p v)
    ∧ r = <[i := AnimalVisitedLocation.update p v]>
            (Animal.visited_locations self)).
  { intros r ->. rewrite py_getitem_nat, list_lookup_alter_eq, Hi.
    split; [done|]. by apply alter_at_lookup. }
  rewrite py_mutate_item_nat by done.
  destruct (Hdone _ eq_refl) as [Hget Hins].
  case_decide as Hsame; [done|].
  case_bool_decide as Hmid.
  - rewrite decide_True by lia.
    replace (Z.of_nat i + 1) with (Z.of_nat (S i)) by lia.
    replace (Z.of_nat i - 1) with (Z.of_nat (pred i)) by lia.
    rewrite !(py_getitem_nat (Animal.visited_locations self)).
    destruct (Animal.visited_locations self !! S i) as [next_element|]; [|done].
    simpl.
    destruct (Animal.visited_locations self !! pred i) as [previous_element|];
      [|done].
    simpl. repeat case_decide; try done; try (exfalso; tauto).
    simpl. rewrite Hget. unfold with_visited_locations. by rewrite Hins.
  - rewrite decide_False by lia.
    case_bool_decide as Hfirst.
    + rewrite decide_True by (split; [lia|apply Hfirst]). done.
    + rewrite decide_False by (intros [-> ?]; apply Hfirst; done).
      simpl. rewrite Hget. unfold with_visited_locations. by rewrite Hins.
Qed.

(** [first_such] is what stdpp's first-match search computes. *)
Lemma first_such_find {A : Type} (P : A → Prop) `{∀ x, Decision (P x)}
    (l : list A) i x :
  list_find P l = Some (i, x) → first_such P l i x.
Proof.
  intros (Hi & HP & Hlt)%list_find_Some. split; [done|]. split; [done|].
  intros j y Hj Hy. by apply (Hlt j y).
Qed.

(** C3: [change_visited_location k p] raises
    [AnimalHasNoCurrentVisitedLocation] when no entry has id [k]. On the entry
    [v] its lookup finds, at position [i], it raises
    [UpdateToSameLocationPoint] when [p] is the point of [v]; for an interior
    [i] it raises when [p] is the point of the entry before or after; for
    [i = 0] it raises when [p] is the chip-in location; otherwise it succeeds,
    returns the updated entry, and the list is the old one with position [i]
    holding the updated entry: same length, same position, other entries
    unchanged. *)
Theorem change_visited_location_contract (self : Animal.t) (k p : Z) :
  let l := Animal.visited_locations self in
  ((∀ v, v ∈ l → ¬ has_id k v) →
   Animal.change_visited_location k p self
   = (inl (Domain (AnimalHasNoCurrentVisitedLocation (Animal.id self) k)), self))
  ∧ ∀ i v, first_such (has_id k) l i v →
    let neighbour_at_p :=
      (0 < i)%nat ∧ (S i < length l)%nat
      ∧ ∃ w, (l !! S i = Some w ∨ l !! pred i = Some w) ∧ point w = p in
    (point v = p →
     Animal.change_visited_location k p self
     = (inl (Domain (UpdateToSameLocationPoint (Animal.id self) p)), self))
    ∧ (point v ≠ p → neighbour_at_p →
       Animal.change_visited_location k p self
       = (inl (Domain (NextOfPreviousEqualThisLocation (Animal.id self) (point v))),
          self))
    ∧ (point v ≠ p → i = 0%nat → p = Animal.chipping_location_id self →
       Animal.change_visited_location k p self
       = (inl (Domain (UpdatedFirstPointToChippingPoint (Animal.id self) (point v))),
          self))
    ∧ (point v ≠ p → ¬ neighbour_at_p →
       ¬ (i = 0%nat ∧ p = Animal.chipping_location_id self) →
       ∃ self',
         Animal.change_visited_location k p self
         = (inr (AnimalVisitedLocation.update p v), self')
         ∧ self' = with_visited_locations
                     (<[i := AnimalVisitedLocation.update p v]> l) self
         ∧ length (Animal.visited_locations self') = length l
         ∧ Animal.visited_locations self' !! i
           = Some (AnimalVisitedLocation.update p v)
         ∧ ∀ j, j ≠ i → Animal.visited_locations self' !! j = l !! j).
Proof.
  intros l. split; [apply change_visited_location_absent|].
  intros i v Hf neighbour_at_p. subst neighbour_at_p.
  pose proof (first_such_lt _ _ _ _ Hf) as Hlt.
  rewrite (change_visited_location_found _ _ _ _ _ Hf). fold l. cbv zeta.
  split; [|split; [|split]].
  - intros Hp. rewrite decide_True by done. by rewrite Hp.
  - intros Hp (Hpos & Hlast & w & Hw & Hwp).
    rewrite decide_False by done. rewrite decide_True by lia.
    destruct (lookup_lt_is_Some_2 l (S i)) as [next_element Hnext]; [lia|].
    destruct (lookup_lt_is_Some_2 l (pred i)) as [previous_element Hprev]; [lia|].
    rewrite Hnext, Hprev. rewrite decide_True; [done|].
    destruct Hw as [Hw|Hw]; simplify_eq; auto.
  - intros Hp -> Hchip. rewrite decide_False by done.
    rewrite decide_False by (intros [? _]; done). by rewrite decide_True.
  - intros Hp Hneighbour Hchip. rewrite decide_False by done.
    eexists. split; [|split; [reflexivity|]].
    + case_decide as Hmid.
      * destruct (lookup_lt_is_Some_2 l (S i)) as [next_element Hnext]; [lia|].
        destruct (lookup_lt_is_Some_2 l (pred i)) as [previous_element Hprev];
          [lia|].
        rewrite Hnext, Hprev. rewrite decide_False; [done|].
        intros Hor. apply Hneighbour. split; [lia|]. split; [lia|].
        destruct Hor as [Hor|Hor]; eauto.
      * by rewrite decide_False.
    + simpl. split; [apply length_insert|].
      split; [by apply list_lookup_insert_eq|].
      intros j Hj. by apply list_lookup_insert_ne.
Qed.

Lemma change_visited_location_contract_witness :
  Animal.change_visited_location 4 6 traveller
  = (inl (Domain (AnimalHasNoCurrentVisitedLocation (Some 1) 4)), traveller)
  ∧ Animal.change_visited_location 2 8 traveller
    = (inl (Domain (UpdateToSameLocationPoint (Some 1) 8)), traveller)
  ∧ Animal.change_visited_location 2 9 traveller
    = (inl (Domain (NextOfPreviousEqualThisLocation (Some 1) 8)), traveller)
  ∧ Animal.change_visited_location 1 5 traveller
    = (inl (Domain (UpdatedFirstPointToChippingPoint (Some 1) 7)), traveller)
  ∧ ∃ self',
      Animal.change_visited_location 2 6 traveller = (inr (visit 2 6), self')
      ∧ Animal.visited_locations self' = [visit 1 7; visit 2 6; visit 3 9].
Proof.
  assert (Hsecond : first_such (has_id 2) (Animal.visited_locations traveller)
                               1 (visit 2 8))
    by (apply (first_such_find (has_id 2)); reflexivity).
  assert (Hfirst : first_such (has_id 1) (Animal.visited_locations traveller)
                              0 (visit 1 7))
    by (apply (first_such_find (has_id 1)); reflexivity).
  split; [|split; [|split; [|split]]].
  - apply (change_visited_location_contract traveller 4 6).
    intros v Hv%list_elem_of_In. simpl in Hv.
    destruct Hv as [<-|[<-|[<-|[]]]]; discriminate.
  - destruct (change_visited_location_contract traveller 2 8) as [_ Hfound].
    apply (Hfound 1%nat (visit 2 8) Hsecond). reflexivity.
  - destruct (change_visited_location_contract traveller 2 9) as [_ Hfound].
    apply (Hfound 1%nat (visit 2 8) Hsecond).
    + discriminate.
    + split; [lia|]. split; [simpl; lia|].
      exists (visit 3 9). split; [by left|reflexivity].
  - destruct (change_visited_location_contract traveller 1 5) as [_ Hfound].
    apply (Hfound 0%nat (visit 1 7) Hfirst).
    + discriminate.
    + reflexivity.
    + reflexivity.
  - destruct (change_visited_location_contract traveller 2 6) as [_ Hfound].
    destruct (Hfound 1%nat (visit 2 8) Hsecond) as (_ & _ & _ & Hok).
    destruct Hok as (self' & Hrun & -> & _).
    + discriminate.
    + intros (_ & _ & w & [Hw|Hw] & Hp); simplify_eq/=; discriminate.
    + intros [? _]. discriminate.
    + exists (with_visited_locations [visit 1 7; visit 2 6; visit 3 9] traveller).
      split; [exact Hrun|reflexivity].
Defined.

(** ** Deleting a visited location *)

Lemma delete_visited_location_absent k self :
  (∀ v, v ∈ Animal.visited_locations self → ¬ has_id k v) →
  Animal.delete_visited_location k self
  = (inl (Domain (AnimalHasNoCurrentVisitedLocation (Animal.id self) k)), self).
Proof.
  intros Hno. unfold Animal.delete_visited_location. run.
  by rewrite (find_visited_location_none _ _ Hno).
Qed.

Lemma delete_visited_location_found k self i v :
  first_such (has_id k) (Animal.visited_locations self) i v →
  Animal.delete_visited_location k self
  = (inr (),
     with_visited_locations
       (without_visit (Animal.chipping_location_id self) i
                      (Animal.visited_locations self)) self).
Proof.
  intros Hf. pose proof (first_such_lt _ _ _ _ Hf) as Hlt.
  assert (Hi : Animal.visited_locations self !! i = Some v) by apply Hf.
  pose proof (py_remove_first _ _ _ (first_such_eq _ _ _ _ Hf)) as Hremove.
  unfold Animal.delete_visited_location. run.
  rewrite (find_visited_location_first _ _ _ _ Hf). simpl.
  unfold py_index. rewrite (index_of_first _ _ _ (first_such_eq _ _ _ _ Hf)).
  simpl. unfold len, without_visit, with_visited_locations.
  case_decide as Hend.
  - replace (Z.of_nat i + 1) with (Z.of_nat (S i)) by lia.
    rewrite py_getitem_nat.
    destruct (lookup_lt_is_Some_2 (Animal.visited_locations self) (S i))
      as [next_visited_location Hnext]; [lia|].
    rewrite Hnext. simpl.
    case_bool_decide as Hcollapse.
    + destruct Hcollapse as [Hzero Hchip].
      assert (i = 0%nat) as -> by lia.
      rewrite Hnext, decide_True by done.
      destruct (Animal.visited_locations self) as [|v' [|w rest]];
        simplify_eq/=.
      destruct (decide (v = next_visited_location)) as [->|Hne]; simpl.
      * by rewrite decide_True.
      * rewrite (decide_True (P := next_visited_location = next_visited_location))
          by done.
        simpl. by rewrite decide_True.
    + simpl. rewrite Hremove. simpl.
      destruct i as [|i]; [|done].
      rewrite Hnext, decide_False; [done|].
      intros Hchip. apply Hcollapse. split; [lia|done].
  - simpl. rewrite Hremove. simpl.
    destruct i as [|i]; [|done].
    rewrite (lookup_ge_None_2 (Animal.visited_locations self) 1); [done|lia].
Qed.

(** C4: [delete_visited_location k] raises
    [AnimalHasNoCurrentVisitedLocation] when no entry has id [k]. When the
    entry its lookup finds is the first one and the entry after it is at the
    chip-in location, both are removed; otherwise only the target is. An
    animal chipped at point 5 with the route [point 7, point 5] is left with
    no visited location once the point-7 entry is deleted. *)
Theorem delete_visited_location_contract (self : Animal.t) (k : Z) :
  let l := Animal.visited_locations self in
  let chip := Animal.chipping_location_id self in
  ((∀ v, v ∈ l → ¬ has_id k v) →
   Animal.delete_visited_location k self
   = (inl (Domain (AnimalHasNoCurrentVisitedLocation (Animal.id self) k)), self))
  ∧ (∀ i v, first_such (has_id k) l i v →
     let followed_by_chip :=
       i = 0%nat ∧ ∃ w, l !! 1%nat = Some w ∧ point w = chip in
     (followed_by_chip →
      Animal.delete_visited_location k self
      = (inr (), with_visited_locations (drop 2 l) self))
     ∧ (¬ followed_by_chip →
        Animal.delete_visited_location k self
        = (inr (), with_visited_locations (delete i l) self)))
  ∧ (∀ v w, l = [v; w] → has_id k v → point v = 7 → point w = 5 → chip = 5 →
     Animal.delete_visited_location k self
     = (inr (), with_visited_locations [] self)).
Proof.
  intros l chip. split; [apply delete_visited_location_absent|]. split.
  - intros i v Hf followed_by_chip. subst followed_by_chip.
    rewrite (delete_visited_location_found _ _ _ _ Hf). fold l chip.
    unfold without_visit. split.
    + intros (-> & w & Hw & Hchip). by rewrite Hw, decide_True.
    + intros Hnot. destruct i as [|i]; [|done].
      destruct (l !! 1%nat) as [w|] eqn:Hw; [|done].
      rewrite decide_False; [done|]. intros Hchip. apply Hnot. eauto.
  - intros v w Hl Hk Hv Hw Hchip.
    assert (Hf : first_such (has_id k) l 0 v).
    { rewrite Hl. by apply first_such_cons_0. }
    rewrite (delete_visited_location_found _ _ _ _ Hf). fold l chip.
    unfold without_visit. rewrite Hl. simpl.
    rewrite decide_True; [done|]. by rewrite Hw, Hchip.
Qed.

Lemma delete_visited_location_contract_witness :
  Animal.delete_visited_location 4 traveller
  = (inl (Domain (AnimalHasNoCurrentVisitedLocation (Some 1) 4)), traveller)
  ∧ Animal.delete_visited_location 1 returned
    = (inr (), animal_at ALIVE 5 [tag 1] [])
  ∧ Animal.delete_visited_location 2 traveller
    = (inr (), animal_at ALIVE 5 [tag 1; tag 2] [visit 1 7; visit 3 9])
  ∧ Animal.delete_visited_location 1 returned
    = (inr (), with_visited_locations [] returned).
Proof.
  split; [|split; [|split]].
  - apply (delete_visited_location_contract traveller 4).
    intros v Hv%list_elem_of_In. simpl in Hv.
    destruct Hv as [<-|[<-|[<-|[]]]]; discriminate.
  - destruct (delete_visited_location_contract returned 1) as (_ & Hfound & _).
    apply (Hfound 0%nat (visit 1 7)).
    + apply (first_such_find (has_id 1)). reflexivity.
    + split; [reflexivity|]. exists (visit 2 5). split; reflexivity.
  - destruct (delete_visited_location_contract traveller 2) as (_ & Hfound & _).
    apply (Hfound 1%nat (visit 2 8)).
    + apply (first_such_find (has_id 2)). reflexivity.
    + intros [? _]. discriminate.
  - destruct (delete_visited_location_contract returned 1) as (_ & _ & Hscenario).
    apply (Hscenario (visit 1 7) (visit 2 5)); reflexivity.
Defined.

(** ** No two adjacent visits at the same point *)

Lemma no_adjacent_duplicates_snoc l x :
  no_adjacent_duplicates l →
  (∀ v, list.last l = Some v → point v ≠ point x) →
  no_adjacent_duplicates (l ++ [x]).
Proof.
  intros Hl Hlast i v w Hv Hw.
  destruct (decide (S i < length l)%nat) as [Hi|Hi].
  - rewrite lookup_app_l in Hv, Hw by lia. by apply (Hl i).
  - assert (S i = length l) as Hlen.
    { apply lookup_lt_Some in Hw. rewrite length_app in Hw. simpl in Hw. lia. }
    rewrite lookup_app_l in Hv by lia.
    rewrite lookup_app_r, Hlen, Nat.sub_diag in Hw by lia. simplify_eq/=.
    apply Hlast. rewrite last_lookup, <- Hlen. done.
Qed.

Lemma no_adjacent_duplicates_drop n l :
  no_adjacent_duplicates l → no_adjacent_duplicates (drop n l).
Proof.
  intros Hl i v w Hv Hw. rewrite lookup_drop in Hv, Hw.
  apply (Hl (n + i)%nat); [done|]. by rewrite <- Nat.add_succ_r.
Qed.

Lemma no_adjacent_duplicates_delete i l :
  no_adjacent_duplicates l →
  (∀ u w, (0 < i)%nat → l !! pred i = Some u → l !! S i = Some w →
          point u ≠ point w) →
  no_adjacent_duplicates (delete i l).
Proof.
  intros Hl Hside j v w Hv Hw.
  destruct (decide (S j < i)%nat) as [Hlt|Hge].
  - rewrite list_lookup_delete_lt in Hv, Hw by lia. by apply (Hl j).
  - destruct (decide (j < i)%nat) as [Hj|Hj].
    + assert (i = S j) as -> by lia.
      rewrite list_lookup_delete_lt in Hv by lia.
      rewrite list_lookup_delete_ge in Hw by lia.
      apply Hside; [lia|done|done].
    + rewrite list_lookup_delete_ge in Hv, Hw by lia. by apply (Hl (S j)).
Qed.

Lemma no_adjacent_duplicates_insert i x l :
  no_adjacent_duplicates l →
  (∀ w, l !! S i = Some w → point x ≠ point w) →
  (∀ u, (0 < i)%nat → l !! pred i = Some u → point u ≠ point x) →
  no_adjacent_duplicates (<[i := x]> l).
Proof.
  intros Hl Hnext Hprev j v w Hv Hw.
  destruct (decide (j = i)) as [->|Hji].
  - rewrite list_lookup_insert_ne in Hw by lia.
    apply lookup_lt_Some in Hv as Hlt. rewrite length_insert in Hlt.
    rewrite list_lookup_insert_eq in Hv by done. simplify_eq. by apply Hnext.
  - rewrite list_lookup_insert_ne in Hv by done.
    destruct (decide (S j = i)) as [<-|Hsji].
    + apply lookup_lt_Some in Hw as Hlt. rewrite length_insert in Hlt.
      rewrite list_lookup_insert_eq in Hw by done. simplify_eq.
      apply Hprev; [lia|done].
    + rewrite list_lookup_insert_ne in Hw by done. by apply (Hl j).
Qed.

(** C1, as stated, fails: changing the last (or the first) entry to the point
    of its only neighbour succeeds, and so does deleting an entry that sits
    between two visits of one point; both leave two adjacent entries at the
    same point. *)
Lemma adjacency_not_preserved :
  no_adjacent_duplicates (Animal.visited_locations traveller)
  ∧ Animal.change_visited_location 3 8 traveller
    = (inr (visit 3 8),
       with_visited_locations [visit 1 7; visit 2 8; visit 3 8] traveller)
  ∧ ¬ no_adjacent_duplicates [visit 1 7; visit 2 8; visit 3 8]
  ∧ no_adjacent_duplicates (Animal.visited_locations commuter)
  ∧ Animal.delete_visited_location 2 commuter
    = (inr (), with_visited_locations [visit 1 7; visit 3 7] commuter)
  ∧ ¬ no_adjacent_duplicates [visit 1 7; visit 3 7].
Proof.
  split; [|split; [|split; [|split; [|split]]]].
  - intros [|[|[|i]]] v w Hv Hw; simplify_eq/=; discriminate.
  - reflexivity.
  - intros Hno. by apply (Hno 1%nat (visit 2 8) (visit 3 8)).
  - intros [|[|[|i]]] v w Hv Hw; simplify_eq/=; discriminate.
  - reflexivity.
  - intros Hno. by apply (Hno 0%nat (visit 1 7) (visit 3 7)).
Qed.

(** C1, amended: on a list without two adjacent entries at one point,
    [add_visited_location] keeps it so whenever it succeeds;
    [change_visited_location] keeps it so whenever it succeeds on an interior
    entry; [delete_visited_location] keeps it so whenever the entries on
    either side of its target, if there are two, are at different points. *)
Theorem adjacency_preserved (self : Animal.t) :
  let l := Animal.visited_locations self in
  no_adjacent_duplicates l →
  (∀ now p self',
     Animal.add_visited_location now p self = (inr (), self') →
     no_adjacent_duplicates (Animal.visited_locations self'))
  ∧ (∀ k p i v r self',
       first_such (has_id k) l i v → (0 < i)%nat → (S i < length l)%nat →
       Animal.change_visited_location k p self = (inr r, self') →
       no_adjacent_duplicates (Animal.visited_locations self'))
  ∧ (∀ k i v self',
       first_such (has_id k) l i v →
       (∀ u w, (0 < i)%nat → l !! pred i = Some u → l !! S i = Some w →
               point u ≠ point w) →
       Animal.delete_visited_location k self = (inr (), self') →
       no_adjacent_duplicates (Animal.visited_locations self')).
Proof.
  intros l Hl. split; [|split].
  - intros now p self'. rewrite add_visited_location_run. fold l.
    repeat case_decide; try done.
    destruct (list.last l) as [v|] eqn:Hlast.
    + case_decide as Hp; [done|]. intros [= <-]. simpl.
      apply no_adjacent_duplicates_snoc; [done|]. intros v' Hv'.
      by simplify_eq/=.
    + intros [= <-]. simpl.
      apply no_adjacent_duplicates_snoc; [done|]. intros v' Hv'. congruence.
  - intros k p i v r self' Hf Hpos Hlast.
    rewrite (change_visited_location_found _ _ _ _ _ Hf). fold l. cbv zeta.
    case_decide as Hsame; [done|]. rewrite decide_True by lia.
    destruct (l !! S i) as [next_element|] eqn:Hnext; [|done].
    destruct (l !! pred i) as [previous_element|] eqn:Hprev; [|done].
    case_decide as Hside; [done|]. intros [= <- <-]. simpl.
    apply no_adjacent_duplicates_insert; [done| |].
    + intros w Hw. simplify_eq/=. intros Heq. apply Hside. by left.
    + intros u _ Hu. simplify_eq/=. intros Heq. apply Hside. by right.
  - intros k i v self' Hf Hside.
    rewrite (delete_visited_location_found _ _ _ _ Hf). fold l.
    intros [= <-]. simpl. unfold without_visit.
    pose proof (no_adjacent_duplicates_delete i l Hl Hside) as Hdelete.
    destruct i as [|i]; [|done].
    destruct (l !! 1%nat) as [w|]; [|done].
    case_decide; [|done]. by apply no_adjacent_duplicates_drop.
Qed.

Lemma adjacency_preserved_witness :
  no_adjacent_duplicates
    [visit 1 7; visit 2 8; visit 3 9; AnimalVisitedLocation.mk None 6 55]
  ∧ no_adjacent_duplicates [visit 1 7; visit 2 6; visit 3 9]
  ∧ no_adjacent_duplicates [visit 1 7; visit 3 9].
Proof.
  assert (Hroute : no_adjacent_duplicates (Animal.visited_locations traveller)).
  { intros [|[|[|i]]] v w Hv Hw; simplify_eq/=; discriminate. }
  assert (Hsecond : first_such (has_id 2) (Animal.visited_locations traveller)
                               1 (visit 2 8))
    by (apply (first_such_find (has_id 2)); reflexivity).
  destruct (adjacency_preserved traveller Hroute) as (Hadd & Hchange & Hdelete).
  split; [|split].
  - apply (Hadd 55 6 (with_visited_locations
                        [visit 1 7; visit 2 8; visit 3 9;
                         AnimalVisitedLocation.mk None 6 55] traveller)).
    reflexivity.
  - apply (Hchange 2 6 1%nat (visit 2 8) (visit 2 6)
                   (with_visited_locations [visit 1 7; visit 2 6; visit 3 9]
                                           traveller) Hsecond).
    + lia.
    + simpl. lia.
    + reflexivity.
  - apply (Hdelete 2 1%nat (visit 2 8)
                   (with_visited_locations [visit 1 7; visit 3 9] traveller)
                   Hsecond).
    + intros u w _ Hu Hw. simplify_eq/=. discriminate.
    + reflexivity.
Defined.

(** ** Type tags *)

Lemma has_tag_first k l :
  has_tag k l ↔ ∃ i t, first_such (has_type k) l i t.
Proof.
  split.
  - intros (t & Ht & Hk).
    destruct (first_such_total (has_type k) l) as [Hno|Hex]; [|done].
    by destruct (Hno t Ht).
  - intros (i & t & Hi & Hk & _). exists t. split; [|done].
    apply list_elem_of_lookup. eauto.
Qed.

Lemma has_tag_or_not k l : has_tag k l ∨ ¬ has_tag k l.
Proof.
  destruct (first_such_total (has_type k) l) as [Hno|Hex]; [right|left].
  - intros (t & Ht & Hk). by apply (Hno t).
  - by apply has_tag_first.
Qed.

Lemma find_animal_type_absent k l :
  ¬ has_tag k l → Animal.find_animal_type l k = None.
Proof.
  intros Hno. apply find_animal_type_none. intros t Ht Hk. apply Hno.
  by exists t.
Qed.

Lemma find_animal_type_present k l :
  has_tag k l → ∃ t, Animal.find_animal_type l k = Some t.
Proof.
  intros (i & t & Hf)%has_tag_first. exists t.
  by apply (find_animal_type_first _ _ i).
Qed.

(** The four outcomes of [change_animal_type]. *)
Lemma change_animal_type_both old new self :
  has_tag old (Animal.animal_types self) →
  has_tag new (Animal.animal_types self) →
  Animal.change_animal_type old new self
  = (inl (Domain (AnimalAlreadyHaveThisTypes (Animal.id self) old new)), self).
Proof.
  intros [t Hold]%find_animal_type_present [u Hnew]%find_animal_type_present.
  unfold Animal.change_animal_type. run. by rewrite Hold, Hnew.
Qed.

Lemma change_animal_type_new_only old new self :
  ¬ has_tag old (Animal.animal_types self) →
  has_tag new (Animal.animal_types self) →
  Animal.change_animal_type old new self
  = (inl (Domain (AnimalAlreadyHaveThisType (Animal.id self) new)), self).
Proof.
  intros Hold%find_animal_type_absent [u Hnew]%find_animal_type_present.
  unfold Animal.change_animal_type. run. by rewrite Hold, Hnew.
Qed.

Lemma change_animal_type_neither old new self :
  ¬ has_tag old (Animal.animal_types self) →
  ¬ has_tag new (Animal.animal_types self) →
  Animal.change_animal_type old new self
  = (inl (Domain (AnimalNotHaveThisType (Animal.id self) old)), self).
Proof.
  intros Hold%find_animal_type_absent Hnew%find_animal_type_absent.
  unfold Animal.change_animal_type. run. rewrite Hold, Hnew. simpl.
  by rewrite Hold.
Qed.

Lemma change_animal_type_old_only old new self i t :
  first_such (has_type old) (Animal.animal_types self) i t →
  ¬ has_tag new (Animal.animal_types self) →
  Animal.change_animal_type old new self
  = (inr (),
     with_animal_types
       (<[i := TypeOfSpecificAnimal.mk new]> (Animal.animal_types self)) self).
Proof.
  intros Hf Hnew%find_animal_type_absent.
  pose proof (first_such_lt _ _ _ _ Hf) as Hlt.
  assert (Hi : Animal.animal_types self !! i = Some t) by apply Hf.
  unfold Animal.change_animal_type. run.
  rewrite (find_animal_type_first _ _ _ _ Hf), Hnew. simpl.
  rewrite (find_animal_type_first _ _ _ _ Hf). simpl.
  unfold py_index. rewrite (index_of_first _ _ _ (first_such_eq _ _ _ _ Hf)).
  simpl. rewrite py_mutate_item_nat by done. simpl.
  by rewrite (alter_at_lookup _ _ _ _ Hi).
Qed.

(** The outcomes of [delete_animal_type]. *)
Lemma delete_animal_type_absent k self :
  ¬ has_tag k (Animal.animal_types self) →
  Animal.delete_animal_type k self
  = (inl (Domain (AnimalNotHaveThisType (Animal.id self) k)), self).
Proof.
  intros Hno%find_animal_type_absent.
  unfold Animal.delete_animal_type. run. by rewrite Hno.
Qed.

Lemma delete_animal_type_found k self i t :
  first_such (has_type k) (Animal.animal_types self) i t →
  Animal.delete_animal_type k self
  = if decide (length (Animal.animal_types self) = 1%nat)
    then (inl (Domain (AnimalOnlyHasThisType (Animal.id self) k)), self)
    else (inr (),
          with_animal_types (delete i (Animal.animal_types self)) self).
Proof.
  intros Hf. pose proof (first_such_lt _ _ _ _ Hf) as Hlt.
  assert (Hi : Animal.animal_types self !! i = Some t) by apply Hf.
  assert (Hk : type_id t = k) by apply Hf.
  unfold Animal.delete_animal_type. run.
  rewrite (find_animal_type_first _ _ _ _ Hf). simpl. unfold len.
  case_decide as Hone.
  - rewrite decide_True by lia.
    assert (i = 0%nat) as -> by lia.
    rewrite (py_getitem_nat _ 0), Hi. simpl.
    rewrite bool_decide_eq_true_2 by done. by rewrite Hk.
  - rewrite decide_False by lia. simpl.
    assert (py_in t (Animal.animal_types self) = true) as ->.
    { apply py_in_spec, list_elem_of_lookup. eauto. }
    simpl.
    by rewrite (py_remove_first _ _ _ (first_such_eq _ _ _ _ Hf)).
Qed.

(** The outcome of [add_animal_type]. *)
Lemma add_animal_type_run k self :
  Animal.add_animal_type k self
  = if decide (TypeOfSpecificAnimal.mk k ∈ Animal.animal_types self)
    then (inl (Domain (AnimalAlreadyHaveThisType (Animal.id self) k)), self)
    else (inr (),
          with_animal_types
            (Animal.animal_types self ++ [TypeOfSpecificAnimal.mk k]) self).
Proof.
  unfold Animal.add_animal_type, py_in. run.
  unfold TypeOfSpecificAnimal.create.
  case_bool_decide; [by rewrite decide_True|by rewrite decide_False; run].
Qed.

(** C5, as stated, fails: with the same type id given as old and as new, and
    one tag of that type, [AnimalAlreadyHaveThisTypes] is raised although the
    animal has no two distinct tags. *)
Lemma both_types_error_without_distinct_tags :
  Animal.change_animal_type 1 1 single_tagged
  = (inl (Domain (AnimalAlreadyHaveThisTypes (Some 1) 1 1)), single_tagged)
  ∧ ¬ ∃ i j t u,
        i ≠ j
        ∧ Animal.animal_types single_tagged !! i = Some t
        ∧ Animal.animal_types single_tagged !! j = Some u
        ∧ has_type 1 t ∧ has_type 1 u.
Proof.
  split; [reflexivity|].
  intros (i & j & t & u & Hij & Hi & Hj & _).
  destruct i as [|i], j as [|j]; simplify_eq/=.
Qed.

(** C5, amended: [change_animal_type old new] raises
    [AnimalAlreadyHaveThisTypes] exactly when a tag of type [old] and a tag of
    type [new] are both present, distinct or not; it raises
    [AnimalAlreadyHaveThisType] when only [new] is present; when [old] is
    present and [new] is not, the first tag of type [old] becomes a tag of
    type [new] where it stands, and nothing else changes: tags [A; B] become
    [C; B] for a [C] that was absent. *)
Theorem change_animal_type_contract (self : Animal.t) (old new : Z) :
  let l := Animal.animal_types self in
  (Animal.change_animal_type old new self
   = (inl (Domain (AnimalAlreadyHaveThisTypes (Animal.id self) old new)), self)
   ↔ has_tag old l ∧ has_tag new l)
  ∧ (¬ has_tag old l → has_tag new l →
     Animal.change_animal_type old new self
     = (inl (Domain (AnimalAlreadyHaveThisType (Animal.id self) new)), self))
  ∧ (∀ i t, first_such (has_type old) l i t → ¬ has_tag new l →
     Animal.change_animal_type old new self
     = (inr (), with_animal_types (<[i := TypeOfSpecificAnimal.mk new]> l) self))
  ∧ (∀ b, l = [TypeOfSpecificAnimal.mk old; TypeOfSpecificAnimal.mk b] →
     new ≠ old → new ≠ b →
     Animal.change_animal_type old new self
     = (inr (),
        with_animal_types
          [TypeOfSpecificAnimal.mk new; TypeOfSpecificAnimal.mk b] self)).
Proof.
  intros l. split; [|split; [|split]].
  - split; [|intros [Hold Hnew]; by apply change_animal_type_both].
    intros Hrun.
    destruct (has_tag_or_not old l) as [Hold|Hold],
             (has_tag_or_not new l) as [Hnew|Hnew]; [done| | |].
    + apply has_tag_first in Hold as (i & t & Hf).
      by rewrite (change_animal_type_old_only _ _ _ _ _ Hf Hnew) in Hrun.
    + by rewrite (change_animal_type_new_only _ _ _ Hold Hnew) in Hrun.
    + by rewrite (change_animal_type_neither _ _ _ Hold Hnew) in Hrun.
  - apply change_animal_type_new_only.
  - intros i t. apply change_animal_type_old_only.
  - intros b Hl Hold Hb.
    rewrite (change_animal_type_old_only old new self 0 (TypeOfSpecificAnimal.mk old)).
    + fold l. by rewrite Hl.
    + fold l. rewrite Hl. by apply first_such_cons_0.
    + fold l. rewrite Hl. intros (t & Ht & Hk).
      apply list_elem_of_In in Ht. simpl in Ht. unfold has_type in Hk.
      destruct Ht as [<-|[<-|[]]]; simpl in Hk; congruence.
Qed.

Lemma change_animal_type_contract_witness :
  (Animal.change_animal_type 1 2 traveller
   = (inl (Domain (AnimalAlreadyHaveThisTypes (Some 1) 1 2)), traveller))
  ∧ Animal.change_animal_type 3 2 traveller
    = (inl (Domain (AnimalAlreadyHaveThisType (Some 1) 2)), traveller)
  ∧ Animal.change_animal_type 2 3 traveller
    = (inr (), with_animal_types [tag 1; tag 3] traveller)
  ∧ Animal.change_animal_type 1 3 traveller
    = (inr (), with_animal_types [tag 3; tag 2] traveller).
Proof.
  assert (Hone : has_tag 1 (Animal.animal_types traveller)).
  { exists (tag 1). split; [by left|reflexivity]. }
  assert (Htwo : has_tag 2 (Animal.animal_types traveller)).
  { exists (tag 2). split; [by right; left|reflexivity]. }
  assert (Hthree : ¬ has_tag 3 (Animal.animal_types traveller)).
  { intros (t & Ht%list_elem_of_In & Hk). simpl in Ht.
    destruct Ht as [<-|[<-|[]]]; discriminate. }
  split; [|split; [|split]].
  - apply (change_animal_type_contract traveller 1 2). by split.
  - by apply (change_animal_type_contract traveller 3 2).
  - destruct (change_animal_type_contract traveller 2 3) as (_ & _ & Hold & _).
    apply (Hold 1%nat (tag 2)); [|done].
    apply (first_such_find (has_type 2)). reflexivity.
  - destruct (change_animal_type_contract traveller 1 3) as (_ & _ & _ & Hab).
    apply (Hab 2); [reflexivity|discriminate|discriminate].
Defined.

(** C6: [delete_animal_type k] raises [AnimalNotHaveThisType] when no tag has
    type [k], and [AnimalOnlyHasThisType] when the tag of type [k] is the only
    tag; otherwise it removes the first tag of type [k] and nothing else, so
    with two tags or more before the call there is exactly one tag less after
    it. *)
Theorem delete_animal_type_contract (self : Animal.t) (k : Z) :
  let l := Animal.animal_types self in
  (¬ has_tag k l →
   Animal.delete_animal_type k self
   = (inl (Domain (AnimalNotHaveThisType (Animal.id self) k)), self))
  ∧ (∀ t, l = [t] → has_type k t →
     Animal.delete_animal_type k self
     = (inl (Domain (AnimalOnlyHasThisType (Animal.id self) k)), self))
  ∧ (∀ i t, first_such (has_type k) l i t → (2 ≤ length l)%nat →
     ∃ self',
       Animal.delete_animal_type k self = (inr (), self')
       ∧ self' = with_animal_types (delete i l) self
       ∧ (length (Animal.animal_types self') + 1)%nat = length l).
Proof.
  intros l. split; [apply delete_animal_type_absent|]. split.
  - intros t Hl Hk.
    assert (Hf : first_such (has_type k) l 0 t).
    { rewrite Hl. by apply first_such_cons_0. }
    rewrite (delete_animal_type_found _ _ _ _ Hf). fold l.
    rewrite decide_True; [done|]. by rewrite Hl.
  - intros i t Hf Hlen. pose proof (first_such_lt _ _ _ _ Hf) as Hlt.
    rewrite (delete_animal_type_found _ _ _ _ Hf). fold l.
    rewrite decide_False by lia.
    eexists. split; [reflexivity|]. split; [reflexivity|].
    simpl. rewrite length_delete; [lia|]. by apply lookup_lt_is_Some_2.
Qed.

Lemma delete_animal_type_contract_witness :
  Animal.delete_animal_type 3 traveller
  = (inl (Domain (AnimalNotHaveThisType (Some 1) 3)), traveller)
  ∧ Animal.delete_animal_type 1 single_tagged
    = (inl (Domain (AnimalOnlyHasThisType (Some 1) 1)), single_tagged)
  ∧ ∃ self',
      Animal.delete_animal_type 2 traveller = (inr (), self')
      ∧ Animal.animal_types self' = [tag 1].
Proof.
  split; [|split].
  - apply (delete_animal_type_contract traveller 3).
    intros (t & Ht%list_elem_of_In & Hk). simpl in Ht.
    destruct Ht as [<-|[<-|[]]]; discriminate.
  - destruct (delete_animal_type_contract single_tagged 1) as (_ & Honly & _).
    apply (Honly (tag 1)); reflexivity.
  - destruct (delete_animal_type_contract traveller 2) as (_ & _ & Hfound).
    destruct (Hfound 1%nat (tag 2)) as (self' & Hrun & -> & _).
    + apply (first_such_find (has_type 2)). reflexivity.
    + simpl. lia.
    + eexists. split; [exact Hrun|reflexivity].
Defined.

(** C9: when the animal has no tag of type [old], and none of type [new]
    either, so that neither of the two earlier checks fires,
    [change_animal_type old new] raises [AnimalNotHaveThisType] for [old]. *)
Theorem change_animal_type_without_old (self : Animal.t) (old new : Z) :
  ¬ has_tag old (Animal.animal_types self) →
  ¬ has_tag new (Animal.animal_types self) →
  Animal.change_animal_type old new self
  = (inl (Domain (AnimalNotHaveThisType (Animal.id self) old)), self).
Proof.
  intros Hold%find_animal_type_absent Hnew%find_animal_type_absent.
  unfold Animal.change_animal_type. run.
  (* both existence checks answer [False], so neither guard raises *)
  rewrite Hold, Hnew. simpl.
  (* and the lookup of the old tag finds nothing *)
  by rewrite Hold.
Qed.

Lemma change_animal_type_without_old_witness :
  Animal.change_animal_type 3 4 traveller
  = (inl (Domain (AnimalNotHaveThisType (Some 1) 3)), traveller).
Proof.
  apply (change_animal_type_without_old traveller 3 4).
  - intros (t & Ht%list_elem_of_In & Hk). simpl in Ht.
    destruct Ht as [<-|[<-|[]]]; discriminate.
  - intros (t & Ht%list_elem_of_In & Hk). simpl in Ht.
    destruct Ht as [<-|[<-|[]]]; discriminate.
Defined.

(** ** Failures leave the aggregate as it was *)

(** Splits the outcome of a method along its tests. *)
Ltac outcomes :=
  repeat first [case_decide | case_match]; simpl; try done.

(** C7: a call of [add_animal_type], [add_visited_location],
    [change_animal_type], [change_visited_location],
    [delete_visited_location] or [delete_animal_type] that raises (a domain
    error, or any other exception) leaves the aggregate exactly as it was
    before the call. *)
Theorem failure_changes_nothing (self self' : Animal.t) (e : Exception) :
  (∀ k, Animal.add_animal_type k self = (inl e, self') → self' = self)
  ∧ (∀ now p,
       Animal.add_visited_location now p self = (inl e, self') → self' = self)
  ∧ (∀ old new,
       Animal.change_animal_type old new self = (inl e, self') → self' = self)
  ∧ (∀ k p,
       Animal.change_visited_location k p self = (inl e, self') → self' = self)
  ∧ (∀ k, Animal.delete_visited_location k self = (inl e, self') → self' = self)
  ∧ (∀ k, Animal.delete_animal_type k self = (inl e, self') → self' = self).
Proof.
  split; [|split; [|split; [|split; [|split]]]].
  - intros k. rewrite add_animal_type_run. outcomes. congruence.
  - intros now p. rewrite add_visited_location_run. outcomes; congruence.
  - intros old new.
    destruct (has_tag_or_not old (Animal.animal_types self)) as [Hold|Hold],
             (has_tag_or_not new (Animal.animal_types self)) as [Hnew|Hnew].
    + rewrite (change_animal_type_both _ _ _ Hold Hnew). congruence.
    + apply has_tag_first in Hold as (i & t & Hf).
      by rewrite (change_animal_type_old_only _ _ _ _ _ Hf Hnew).
    + rewrite (change_animal_type_new_only _ _ _ Hold Hnew). congruence.
    + rewrite (change_animal_type_neither _ _ _ Hold Hnew). congruence.
  - intros k p.
    destruct (first_such_total (has_id k) (Animal.visited_locations self))
      as [Hno|(i & v & Hf)].
    + rewrite (change_visited_location_absent _ _ _ Hno). congruence.
    + rewrite (change_visited_location_found _ _ _ _ _ Hf). cbv zeta.
      outcomes; congruence.
  - intros k.
    destruct (first_such_total (has_id k) (Animal.visited_locations self))
      as [Hno|(i & v & Hf)].
    + rewrite (delete_visited_location_absent _ _ Hno). congruence.
    + by rewrite (delete_visited_location_found _ _ _ _ Hf).
  - intros k.
    destruct (has_tag_or_not k (Animal.animal_types self)) as [Hk|Hk].
    + apply has_tag_first in Hk as (i & t & Hf).
      rewrite (delete_animal_type_found _ _ _ _ Hf). outcomes. congruence.
    + rewrite (delete_animal_type_absent _ _ Hk). congruence.
Qed.

Lemma failure_changes_nothing_witness :
  snd (Animal.add_animal_type 1 traveller) = traveller
  ∧ snd (Animal.add_visited_location 55 9 traveller) = traveller
  ∧ snd (Animal.change_animal_type 1 2 traveller) = traveller
  ∧ snd (Animal.change_visited_location 2 9 traveller) = traveller
  ∧ snd (Animal.delete_visited_location 4 traveller) = traveller
  ∧ snd (Animal.delete_animal_type 3 traveller) = traveller.
Proof.
  split; [|split; [|split; [|split; [|split]]]].
  - destruct (failure_changes_nothing
              traveller (snd (Animal.add_animal_type 1 traveller))
              (Domain (AnimalAlreadyHaveThisType (Some 1) 1))) as (H & _).
    apply (H 1). reflexivity.
  - destruct (failure_changes_nothing
              traveller (snd (Animal.add_visited_location 55 9 traveller))
              (Domain (AnimalNowInThisPoint (Some 1) 9))) as (_ & H & _).
    apply (H 55 9). reflexivity.
  - destruct (failure_changes_nothing
              traveller (snd (Animal.change_animal_type 1 2 traveller))
              (Domain (AnimalAlreadyHaveThisTypes (Some 1) 1 2))) as (_ & _ & H & _).
    apply (H 1 2). reflexivity.
  - destruct (failure_changes_nothing
              traveller (snd (Animal.change_visited_location 2 9 traveller))
              (Domain (NextOfPreviousEqualThisLocation (Some 1) 8))) as (_ & _ & _ & H & _).
    apply (H 2 9). reflexivity.
  - destruct (failure_changes_nothing
              traveller (snd (Animal.delete_visited_location 4 traveller))
              (Domain (AnimalHasNoCurrentVisitedLocation (Some 1) 4))) as (_ & _ & _ & _ & H & _).
    apply (H 4). reflexivity.
  - destruct (failure_changes_nothing
              traveller (snd (Animal.delete_animal_type 3 traveller))
              (Domain (AnimalNotHaveThisType (Some 1) 3))) as (_ & _ & _ & _ & _ & H).
    apply (H 3). reflexivity.
Defined.

(** ** The time of death *)

(** C8, as stated, fails: [update] records a new life status and leaves the
    time of death alone, so a living animal updated to [DEAD] is dead without
    a time of death. *)
Lemma death_invariant_broken_by_update :
  death_recorded_iff_dead single_tagged
  ∧ ¬ death_recorded_iff_dead
        (snd (Animal.update UNSET UNSET UNSET UNSET (Given DEAD) UNSET UNSET
                            UNSET UNSET single_tagged)).
Proof.
  split.
  - split; [intros [d Hd]; discriminate|discriminate].
  - intros [_ Hdead]. destruct (Hdead eq_refl) as [d Hd]. discriminate.
Qed.

(** C8, amended: on an animal whose time of death is recorded exactly when it
    is dead, [set_death_datetime] keeps it so; [update] keeps it so when it is
    given no life status or the one the animal has; and [update] to [DEAD]
    followed by [set_death_datetime] ends in such a state. *)
Theorem death_invariant (self : Animal.t) :
  death_recorded_iff_dead self →
  (∀ now, death_recorded_iff_dead (snd (Animal.set_death_datetime now self)))
  ∧ (∀ weight length height gender life_status chipper_id chipping_location_id
       animal_types visited_locations,
       (∀ status, life_status = Given status →
                  Animal.life_status self = Some status) →
       death_recorded_iff_dead
         (snd (Animal.update weight length height gender life_status chipper_id
                             chipping_location_id animal_types
                             visited_locations self)))
  ∧ (∀ weight length height gender chipper_id chipping_location_id
       animal_types visited_locations now,
       death_recorded_iff_dead
         (snd ((Animal.update weight length height gender (Given DEAD)
                              chipper_id chipping_location_id animal_types
                              visited_locations;;
                Animal.set_death_datetime now) self))).
Proof.
  unfold death_recorded_iff_dead. intros Hinv. split; [|split].
  - intros now. unfold Animal.set_death_datetime. run.
    case_decide as Hdead; simpl; [|done]. split; [done|]. intros _. by eexists.
  - intros weight length height gender life_status chipper_id
           chipping_location_id animal_types visited_locations Hsame.
    unfold Animal.update, Animal._merge. simpl.
    destruct life_status as [|status]; simpl; [done|].
    by rewrite <- (Hsame status eq_refl).
  - intros weight length height gender chipper_id chipping_location_id
           animal_types visited_locations now.
    unfold Animal.set_death_datetime, Animal.update, Animal._merge. run.
    split; [done|]. intros _. by eexists.
Qed.

Lemma death_invariant_witness :
  death_recorded_iff_dead (snd (Animal.set_death_datetime 77 single_tagged))
  ∧ death_recorded_iff_dead
      (snd (Animal.update (Given 2%Q) UNSET UNSET UNSET (Given ALIVE) UNSET UNSET
                          UNSET UNSET single_tagged))
  ∧ death_recorded_iff_dead
      (snd ((Animal.update UNSET UNSET UNSET UNSET (Given DEAD) UNSET UNSET
                           UNSET UNSET;;
             Animal.set_death_datetime 77) single_tagged)).
Proof.
  assert (Hinv : death_recorded_iff_dead single_tagged).
  { split; [intros [d Hd]; discriminate|discriminate]. }
  destruct (death_invariant single_tagged Hinv) as (Hset & Hupdate & Hboth).
  split; [|split].
  - apply (Hset 77).
  - apply Hupdate. intros status [= <-]. reflexivity.
  - apply Hboth.
Defined.

(** ** The life status and the visited locations *)

(** Changing or deleting a visited location never reads the life status: run
    in another life status, the call has the same outcome and leaves the same
    aggregate, in that other life status. *)
Lemma change_visited_location_any_status status k p self :
  Animal.change_visited_location k p (with_life_status status self)
  = (fst (Animal.change_visited_location k p self),
     with_life_status status (snd (Animal.change_visited_location k p self))).
Proof.
  destruct (first_such_total (has_id k) (Animal.visited_locations self))
    as [Hno|(i & v & Hf)].
  - rewrite !change_visited_location_absent by done. done.
  - rewrite (change_visited_location_found k p self i v) by done.
    rewrite (change_visited_location_found k p (with_life_status status self) i v)
      by done.
    simpl. outcomes.
Qed.

Lemma delete_visited_location_any_status status k self :
  Animal.delete_visited_location k (with_life_status status self)
  = (fst (Animal.delete_visited_location k self),
     with_life_status status (snd (Animal.delete_visited_location k self))).
Proof.
  destruct (first_such_total (has_id k) (Animal.visited_locations self))
    as [Hno|(i & v & Hf)].
  - rewrite !delete_visited_location_absent by done. done.
  - rewrite (delete_visited_location_found k self i v) by done.
    by rewrite (delete_visited_location_found k (with_life_status status self) i v).
Qed.

Lemma change_visited_location_not_dead k p self a :
  fst (Animal.change_visited_location k p self) ≠ inl (Domain (AnimalIsDead a)).
Proof.
  destruct (first_such_total (has_id k) (Animal.visited_locations self))
    as [Hno|(i & v & Hf)].
  - by rewrite change_visited_location_absent.
  - rewrite (change_visited_location_found k p self i v) by done.
    simpl. outcomes.
Qed.

Lemma delete_visited_location_not_dead k self a :
  fst (Animal.delete_visited_location k self) ≠ inl (Domain (AnimalIsDead a)).
Proof.
  destruct (first_such_total (has_id k) (Animal.visited_locations self))
    as [Hno|(i & v & Hf)].
  - by rewrite delete_visited_location_absent.
  - by rewrite (delete_visited_location_found k self i v).
Qed.

(** C10: on a dead animal, [change_visited_location] and
    [delete_visited_location] never raise [AnimalIsDead], and they do what
    they do on the same animal alive: same outcome, and the same aggregate
    left behind but for the life status. *)
Theorem dead_animal_guard_only_on_add (self : Animal.t) (k p : Z) :
  Animal.life_status self = Some DEAD →
  let alive := with_life_status (Some ALIVE) self in
  (∀ a, fst (Animal.change_visited_location k p self)
        ≠ inl (Domain (AnimalIsDead a)))
  ∧ fst (Animal.change_visited_location k p self)
    = fst (Animal.change_visited_location k p alive)
  ∧ snd (Animal.change_visited_location k p self)
    = with_life_status (Some DEAD)
                       (snd (Animal.change_visited_location k p alive))
  ∧ (∀ a, fst (Animal.delete_visited_location k self)
          ≠ inl (Domain (AnimalIsDead a)))
  ∧ fst (Animal.delete_visited_location k self)
    = fst (Animal.delete_visited_location k alive)
  ∧ snd (Animal.delete_visited_location k self)
    = with_life_status (Some DEAD)
                       (snd (Animal.delete_visited_location k alive)).
Proof.
  intros Hdead alive.
  assert (Hself : self = with_life_status (Some DEAD) alive).
  { destruct self. simpl in Hdead. by rewrite Hdead. }
  split; [apply change_visited_location_not_dead|].
  split; [rewrite Hself at 1; by rewrite change_visited_location_any_status|].
  split; [rewrite Hself at 1; by rewrite change_visited_location_any_status|].
  split; [apply delete_visited_location_not_dead|].
  split; rewrite Hself at 1; by rewrite delete_visited_location_any_status.
Qed.

Lemma dead_animal_guard_only_on_add_witness :
  Animal.change_visited_location 2 6 (animal_at DEAD 5 [tag 1] [visit 1 7; visit 2 8])
  = (inr (visit 2 6), animal_at DEAD 5 [tag 1] [visit 1 7; visit 2 6])
  ∧ Animal.delete_visited_location 2 (animal_at DEAD 5 [tag 1] [visit 1 7; visit 2 8])
    = (inr (), animal_at DEAD 5 [tag 1] [visit 1 7]).
Proof.
  destruct (dead_animal_guard_only_on_add
              (animal_at DEAD 5 [tag 1] [visit 1 7; visit 2 8]) 2 6 eq_refl)
    as (_ & Hchange & Hchanged & _ & Hdelete & Hdeleted).
  split.
  - rewrite (surjective_pairing (Animal.change_visited_location _ _ _)).
    rewrite Hchange, Hchanged. reflexivity.
  - rewrite (surjective_pairing (Animal.delete_visited_location _ _)).
    rewrite Hdelete, Hdeleted. reflexivity.
Defined.

(** * Further properties of the aggregate *)

(** ** Adding a type tag *)

Lemma has_tag_elem_of k l : has_tag k l ↔ TypeOfSpecificAnimal.mk k ∈ l.
Proof.
  split.
  - intros ([k'] & Ht & Hk). unfold has_type in Hk. simpl in Hk. by subst k'.
  - intros Hin. by exists (TypeOfSpecificAnimal.mk k).
Qed.

(** X1: [add_animal_type k] raises [AnimalAlreadyHaveThisType] exactly when a
    tag of type [k] is there already, and then changes nothing; otherwise it
    succeeds and the only change is one new tag of type [k] after the tags
    there were. *)
Theorem add_animal_type_contract (self : Animal.t) (k : Z) :
  let l := Animal.animal_types self in
  (Animal.add_animal_type k self
   = (inl (Domain (AnimalAlreadyHaveThisType (Animal.id self) k)), self)
   ↔ has_tag k l)
  ∧ (Animal.add_animal_type k self
     = (inr (), with_animal_types (l ++ [TypeOfSpecificAnimal.mk k]) self)
     ↔ ¬ has_tag k l).
Proof.
  intros l. rewrite add_animal_type_run. fold l.
  rewrite (has_tag_elem_of k l).
  split; (split; [|intros Hin]); case_decide; by try done.
Qed.

Lemma add_animal_type_contract_witness :
  Animal.add_animal_type 2 traveller
  = (inl (Domain (AnimalAlreadyHaveThisType (Some 1) 2)), traveller)
  ∧ Animal.add_animal_type 3 traveller
    = (inr (), with_animal_types [tag 1; tag 2; tag 3] traveller).
Proof.
  split.
  - apply (add_animal_type_contract traveller 2).
    exists (tag 2). split; [by right; left|reflexivity].
  - apply (add_animal_type_contract traveller 3).
    intros (t & Ht%list_elem_of_In & Hk). simpl in Ht.
    destruct Ht as [<-|[<-|[]]]; discriminate.
Defined.

(** ** Looking for a duplicate tag *)

Section Occurrences.
Context {A : Type} `{EqDecision A}.
Implicit Types (l : list A) (x y : A).

Lemma first_such_iff (P Q : A → Prop) l i x :
  (∀ y, P y ↔ Q y) → first_such P l i x ↔ first_such Q l i x.
Proof.
  intros HPQ. unfold first_such. rewrite (HPQ x).
  split; intros (Hi & Hx & Hlt); (split; [done|]); (split; [done|]);
    intros j y Hj Hy HQ; apply (Hlt j y Hj Hy); by apply HPQ.
Qed.

Lemma py_count_positive l x : 0 < py_count l x ↔ x ∈ l.
Proof.
  unfold py_count. split.
  - intros Hpos.
    destruct (filter (λ y, y = x) l) as [|y k] eqn:Hfilter; [simpl in Hpos; lia|].
    assert (Hy : y ∈ filter (λ y, y = x) l) by (rewrite Hfilter; left).
    apply list_elem_of_filter in Hy as [-> Hy]. done.
  - intros Hx.
    assert (Hin : x ∈ filter (λ y, y = x) l) by by apply list_elem_of_filter.
    destruct (filter (λ y, y = x) l); [by apply not_elem_of_nil in Hin|].
    simpl. lia.
Qed.

Lemma py_count_cons l x y :
  py_count (y :: l) x = (if decide (y = x) then 1 else 0) + py_count l x.
Proof.
  unfold py_count. rewrite filter_cons. case_decide; simpl; lia.
Qed.

(** [count] answers more than one exactly for an element at two positions. *)
Lemma py_count_twice l x : 1 < py_count l x ↔ occurs_twice l x.
Proof.
  induction l as [|y l IH].
  - split; [unfold py_count; simpl; lia|]. by intros (i & j & _ & Hi & _).
  - rewrite py_count_cons. split.
    + intros Hcount. case_decide as Hy.
      * subst y. assert (Hx : x ∈ l) by (apply py_count_positive; lia).
        apply list_elem_of_lookup in Hx as [j Hj].
        by exists 0%nat, (S j).
      * destruct IH as [IH _]. destruct IH as (i & j & Hij & Hi & Hj); [lia|].
        exists (S i), (S j). split; [lia|done].
    + intros (i & j & Hij & Hi & Hj).
      assert (Hnonneg : 0 ≤ py_count l x) by (unfold py_count; lia).
      destruct i as [|i], j as [|j]; simplify_eq/=.
      * rewrite decide_True by done.
        assert (0 < py_count l x); [|lia].
        apply py_count_positive, list_elem_of_lookup. eauto.
      * rewrite decide_True by done.
        assert (0 < py_count l x); [|lia].
        apply py_count_positive, list_elem_of_lookup. eauto.
      * assert (1 < py_count l x); [|case_decide; lia].
        apply IH. exists i, j. split; [congruence|done].
Qed.

Lemma NoDup_occurs_twice l : NoDup l ↔ ∀ x, ¬ occurs_twice l x.
Proof.
  rewrite NoDup_alt. split.
  - intros Hdup x (i & j & Hij & Hi & Hj). by apply Hij, (Hdup i j x).
  - intros Hno i j x Hi Hj. destruct (decide (i = j)) as [|Hij]; [done|].
    destruct (Hno x). by exists i, j.
Qed.
End Occurrences.

Lemma first_duplicate_Some all rest t :
  Animal.first_duplicate all rest = Some t
  ↔ ∃ i, first_such (λ x, 1 < py_count all x) rest i t.
Proof.
  induction rest as [|y rest IH]; simpl.
  - split; [done|]. by intros (i & Hi & _).
  - case_bool_decide as Hy.
    + split.
      * intros [= ->]. exists 0%nat. by apply first_such_cons_0.
      * intros ([|i] & Hi & Ht & Hlt); simplify_eq/=; [done|].
        destruct (Hlt 0%nat y); [lia|done|done].
    + rewrite IH. split.
      * intros (i & Hf). exists (S i). by apply first_such_cons_S.
      * intros ([|i] & Hf).
        -- destruct Hf as (Hi & Ht & _). simplify_eq/=. done.
        -- apply first_such_tail in Hf as [_ Hf]. by exists i.
Qed.

Lemma first_duplicate_None all rest :
  Animal.first_duplicate all rest = None
  ↔ ∀ x, x ∈ rest → ¬ 1 < py_count all x.
Proof.
  induction rest as [|y rest IH]; simpl.
  - split; [|done]. intros _ x Hx. by apply not_elem_of_nil in Hx.
  - case_bool_decide as Hy.
    + split; [done|]. intros Hno. destruct (Hno y); [left|done].
    + rewrite IH. split.
      * intros Hno x [->|Hx]%elem_of_cons; auto.
      * intros Hno x Hx. apply Hno. by right.
Qed.

(** X2: [check_duplicate_types] never raises and changes nothing. It answers
    [None] exactly when no two tags of the animal are equal, and otherwise
    the first tag, in the order of the list, that occurs at two positions. *)
Theorem check_duplicate_types_spec (self : Animal.t) :
  let l := Animal.animal_types self in
  ∃ r, Animal.check_duplicate_types self = (inr r, self)
       ∧ (r = None ↔ NoDup l)
       ∧ (∀ t, r = Some t ↔ ∃ i, first_such (occurs_twice l) l i t).
Proof.
  intros l. exists (Animal.first_duplicate l l).
  split; [reflexivity|]. split.
  - rewrite first_duplicate_None, NoDup_occurs_twice. split.
    + intros Hno x Htwice. apply (Hno x); [|by apply py_count_twice].
      destruct Htwice as (i & _ & _ & Hi & _). apply list_elem_of_lookup. eauto.
    + intros Hno x _ Hcount. by apply (Hno x), py_count_twice.
  - intros t. rewrite first_duplicate_Some.
    split; intros (i & Hf); exists i;
      by apply (first_such_iff (λ x, 1 < py_count l x) (occurs_twice l) l i t
                               (py_count_twice l)).
Qed.

Lemma check_duplicate_types_spec_witness :
  NoDup (Animal.animal_types traveller)
  ∧ ∃ i, first_such
           (occurs_twice [tag 1; tag 2; tag 2; tag 1])
           [tag 1; tag 2; tag 2; tag 1] i (tag 1).
Proof.
  split.
  - destruct (check_duplicate_types_spec traveller) as (r & Hrun & Hnone & _).
    apply Hnone. by injection Hrun as <-.
  - destruct (check_duplicate_types_spec
                (animal_at ALIVE 5 [tag 1; tag 2; tag 2; tag 1] []))
      as (r & Hrun & _ & Hsome).
    apply (Hsome (tag 1)). by injection Hrun as <-.
Defined.

(** ** The tags stay distinct and never run out *)

Lemma NoDup_insert_fresh {A : Type} (l : list A) i x :
  NoDup l → x ∉ l → NoDup (<[i := x]> l).
Proof.
  intros Hdup Hx. destruct (l !! i) as [y|] eqn:Hi.
  - rewrite insert_take_drop by by eapply lookup_lt_Some.
    rewrite <- (take_drop_middle l i y Hi) in Hdup, Hx.
    apply list.NoDup_app in Hdup as (Htake & Hdisjoint & [Hy Hdrop]%list.NoDup_cons).
    apply list.NoDup_app. split; [done|]. split.
    + intros z Hz [->|Hzd]%elem_of_cons.
      * apply Hx, elem_of_app. by left.
      * apply (Hdisjoint z Hz). by right.
    + apply list.NoDup_cons. split; [|done].
      intros Hxd. apply Hx, elem_of_app. right. by right.
  - rewrite list_insert_ge; [done|]. by apply lookup_ge_None.
Qed.

(** X3: when no two tags of the animal are equal, this is still so after a
    successful [add_animal_type], [change_animal_type] or
    [delete_animal_type]. *)
Theorem tags_stay_distinct (self self' : Animal.t) :
  NoDup (Animal.animal_types self) →
  (∀ k, Animal.add_animal_type k self = (inr (), self') →
        NoDup (Animal.animal_types self'))
  ∧ (∀ old new, Animal.change_animal_type old new self = (inr (), self') →
                NoDup (Animal.animal_types self'))
  ∧ (∀ k, Animal.delete_animal_type k self = (inr (), self') →
          NoDup (Animal.animal_types self')).
Proof.
  intros Hdup. split; [|split].
  - intros k. rewrite add_animal_type_run. case_decide as Hk; [done|].
    intros [= <-]. simpl. apply list.NoDup_app. split; [done|]. split.
    + intros x Hx [->|Hnil]%elem_of_cons; [done|].
      by apply not_elem_of_nil in Hnil.
    + apply NoDup_singleton.
  - intros old new.
    destruct (has_tag_or_not old (Animal.animal_types self)) as [Hold|Hold],
             (has_tag_or_not new (Animal.animal_types self)) as [Hnew|Hnew].
    + by rewrite (change_animal_type_both _ _ _ Hold Hnew).
    + apply has_tag_first in Hold as (i & t & Hf).
      rewrite (change_animal_type_old_only _ _ _ _ _ Hf Hnew).
      intros [= <-]. simpl. apply NoDup_insert_fresh; [done|].
      by rewrite <- has_tag_elem_of.
    + by rewrite (change_animal_type_new_only _ _ _ Hold Hnew).
    + by rewrite (change_animal_type_neither _ _ _ Hold Hnew).
  - intros k.
    destruct (has_tag_or_not k (Animal.animal_types self)) as [Hk|Hk].
    + apply has_tag_first in Hk as (i & t & Hf).
      rewrite (delete_animal_type_found _ _ _ _ Hf). case_decide; [done|].
      intros [= <-]. simpl. by apply (sublist_NoDup _ _ Hdup), sublist_delete.
    + by rewrite (delete_animal_type_absent _ _ Hk).
Qed.

Lemma tags_stay_distinct_witness :
  NoDup [tag 1; tag 2; tag 3] ∧ NoDup [tag 1; tag 3] ∧ NoDup [tag 1].
Proof.
  assert (Hdup : NoDup (Animal.animal_types traveller)).
  { apply list.NoDup_cons. split; [by intros [=]%list_elem_of_singleton|].
    apply NoDup_singleton. }
  split; [|split].
  - destruct (tags_stay_distinct
                traveller (with_animal_types [tag 1; tag 2; tag 3] traveller)
                Hdup) as (Hadd & _).
    by apply (Hadd 3).
  - destruct (tags_stay_distinct
                traveller (with_animal_types [tag 1; tag 3] traveller)
                Hdup) as (_ & Hchange & _).
    by apply (Hchange 2 3).
  - destruct (tags_stay_distinct
                traveller (with_animal_types [tag 1] traveller)
                Hdup) as (_ & _ & Hdelete).
    by apply (Hdelete 2).
Defined.

(** X4: after a successful [add_animal_type], [change_animal_type] or
    [delete_animal_type] the animal has at least one tag. *)
Theorem tags_never_run_out (self self' : Animal.t) :
  (∀ k, Animal.add_animal_type k self = (inr (), self') →
        Animal.animal_types self' ≠ [])
  ∧ (∀ old new, Animal.change_animal_type old new self = (inr (), self') →
                Animal.animal_types self' ≠ [])
  ∧ (∀ k, Animal.delete_animal_type k self = (inr (), self') →
          Animal.animal_types self' ≠ []).
Proof.
  split; [|split].
  - intros k. rewrite add_animal_type_run. case_decide as Hk; [done|].
    intros [= <-]. simpl. by intros [_ [=]]%app_eq_nil.
  - intros old new.
    destruct (has_tag_or_not old (Animal.animal_types self)) as [Hold|Hold],
             (has_tag_or_not new (Animal.animal_types self)) as [Hnew|Hnew].
    + by rewrite (change_animal_type_both _ _ _ Hold Hnew).
    + apply has_tag_first in Hold as (i & t & Hf).
      pose proof (first_such_lt _ _ _ _ Hf) as Hlt.
      rewrite (change_animal_type_old_only _ _ _ _ _ Hf Hnew).
      intros [= <-]. simpl. intros Hnil.
      apply (f_equal length) in Hnil. rewrite length_insert in Hnil.
      simpl in Hnil. lia.
    + by rewrite (change_animal_type_new_only _ _ _ Hold Hnew).
    + by rewrite (change_animal_type_neither _ _ _ Hold Hnew).
  - intros k.
    destruct (has_tag_or_not k (Animal.animal_types self)) as [Hk|Hk].
    + apply has_tag_first in Hk as (i & t & Hf).
      pose proof (first_such_lt _ _ _ _ Hf) as Hlt.
      rewrite (delete_animal_type_found _ _ _ _ Hf). case_decide as Hone; [done|].
      intros [= <-]. simpl. intros Hnil.
      apply (f_equal length) in Hnil.
      rewrite length_delete in Hnil by by apply lookup_lt_is_Some_2.
      simpl in Hnil. lia.
    + by rewrite (delete_animal_type_absent _ _ Hk).
Qed.

Lemma tags_never_run_out_witness :
  [tag 1; tag 2; tag 3] ≠ [] ∧ [tag 1; tag 3] ≠ [] ∧ [tag 1] ≠ [].
Proof.
  split; [|split].
  - destruct (tags_never_run_out
                traveller (with_animal_types [tag 1; tag 2; tag 3] traveller))
      as (Hadd & _).
    by apply (Hadd 3).
  - destruct (tags_never_run_out
                traveller (with_animal_types [tag 1; tag 3] traveller))
      as (_ & Hchange & _).
    by apply (Hchange 2 3).
  - destruct (tags_never_run_out
                traveller (with_animal_types [tag 1] traveller))
      as (_ & _ & Hdelete).
    by apply (Hdelete 2).
Defined.

(** ** Deleting a tag and changing it back *)

Lemma elem_of_delete_lookup {A : Type} (l : list A) i x :
  x ∈ delete i l ↔ ∃ j, j ≠ i ∧ l !! j = Some x.
Proof.
  rewrite list_elem_of_lookup. split.
  - intros [j Hj]. destruct (decide (j < i)%nat) as [Hlt|Hge].
    + rewrite list_lookup_delete_lt in Hj by done. exists j. split; [lia|done].
    + rewrite list_lookup_delete_ge in Hj by lia. exists (S j). split; [lia|done].
  - intros (j & Hji & Hj). destruct (decide (j < i)%nat) as [Hlt|Hge].
    + exists j. by rewrite list_lookup_delete_lt.
    + exists (pred j). rewrite list_lookup_delete_ge by lia.
      by replace (S (pred j)) with j by lia.
Qed.

Lemma with_animal_types_same self :
  with_animal_types (Animal.animal_types self) self = self.
Proof. by destruct self. Qed.

Lemma with_animal_types_twice l k self :
  with_animal_types l (with_animal_types k self) = with_animal_types l self.
Proof. done. Qed.

(** X5: on an animal whose tags are distinct, a successful
    [delete_animal_type k] leaves no tag of type [k] and keeps the tags of
    every other type; deleting [k] once more raises
    [AnimalNotHaveThisType]. *)
Theorem delete_animal_type_forgets (self self' : Animal.t) (k : Z) :
  NoDup (Animal.animal_types self) →
  Animal.delete_animal_type k self = (inr (), self') →
  ¬ has_tag k (Animal.animal_types self')
  ∧ (∀ k', k' ≠ k →
           (has_tag k' (Animal.animal_types self')
            ↔ has_tag k' (Animal.animal_types self)))
  ∧ Animal.delete_animal_type k self'
    = (inl (Domain (AnimalNotHaveThisType (Animal.id self') k)), self').
Proof.
  intros Hdup.
  destruct (has_tag_or_not k (Animal.animal_types self)) as [Hk|Hk];
    [|by rewrite (delete_animal_type_absent _ _ Hk)].
  apply has_tag_first in Hk as (i & t & Hf).
  rewrite (delete_animal_type_found _ _ _ _ Hf). case_decide as Hone; [done|].
  intros [= <-]. simpl.
  destruct Hf as (Hi & Ht & _).
  assert (Hgone : ¬ has_tag k (delete i (Animal.animal_types self))).
  { intros (u & (j & Hji & Hj)%elem_of_delete_lookup & Hu).
    assert (u = t) as ->.
    { destruct u, t. unfold has_type in *. simpl in *. congruence. }
    apply Hji. by apply (NoDup_lookup _ j i t Hdup). }
  split; [done|]. split.
  - intros k' Hk'. split.
    + intros (u & (j & _ & Hj)%elem_of_delete_lookup & Hku).
      exists u. split; [|done]. apply list_elem_of_lookup. eauto.
    + intros (u & [j Hj]%list_elem_of_lookup & Hku). exists u. split; [|done].
      apply elem_of_delete_lookup. exists j. split; [|done].
      intros ->. unfold has_type in *. congruence.
  - by apply (delete_animal_type_absent
                k (with_animal_types (delete i (Animal.animal_types self)) self)).
Qed.

Lemma delete_animal_type_forgets_witness :
  ¬ has_tag 2 [tag 1]
  ∧ Animal.delete_animal_type 2 (with_animal_types [tag 1] traveller)
    = (inl (Domain (AnimalNotHaveThisType (Some 1) 2)),
       with_animal_types [tag 1] traveller).
Proof.
  assert (Hdup : NoDup (Animal.animal_types traveller)).
  { apply list.NoDup_cons. split; [by intros [=]%list_elem_of_singleton|].
    apply NoDup_singleton. }
  destruct (delete_animal_type_forgets
              traveller (with_animal_types [tag 1] traveller) 2 Hdup eq_refl)
    as (Hgone & _ & Hagain).
  by split.
Defined.

(** X6: on an animal whose tags are distinct, a successful
    [change_animal_type old new] is undone by [change_animal_type new old],
    which succeeds and gives the aggregate back as it was. *)
Theorem change_animal_type_round_trip (self self' : Animal.t) (old new : Z) :
  NoDup (Animal.animal_types self) →
  Animal.change_animal_type old new self = (inr (), self') →
  Animal.change_animal_type new old self' = (inr (), self).
Proof.
  intros Hdup.
  destruct (has_tag_or_not old (Animal.animal_types self)) as [Hold|Hold],
           (has_tag_or_not new (Animal.animal_types self)) as [Hnew|Hnew].
  - by rewrite (change_animal_type_both _ _ _ Hold Hnew).
  - apply has_tag_first in Hold as (i & t & Hf).
    rewrite (change_animal_type_old_only _ _ _ _ _ Hf Hnew).
    intros [= <-]. pose proof (first_such_lt _ _ _ _ Hf) as Hlt.
    destruct Hf as (Hi & Ht & Hbefore).
    assert (t = TypeOfSpecificAnimal.mk old) as ->.
    { destruct t. unfold has_type in Ht. simpl in Ht. by subst. }
    set (l := Animal.animal_types self) in *.
    assert (Hback : first_such (has_type new)
                      (<[i := TypeOfSpecificAnimal.mk new]> l) i
                      (TypeOfSpecificAnimal.mk new)).
    { split; [by apply list_lookup_insert_eq|]. split; [done|].
      intros j u Hj Hu Hnewu. rewrite list_lookup_insert_ne in Hu by lia.
      apply Hnew. exists u. split; [|done]. apply list_elem_of_lookup. eauto. }
    assert (Hnoold : ¬ has_tag old (<[i := TypeOfSpecificAnimal.mk new]> l)).
    { intros (u & [j Hj]%list_elem_of_lookup & Hu).
      destruct (decide (j = i)) as [->|Hji].
      - rewrite list_lookup_insert_eq in Hj by done. simplify_eq.
        unfold has_type in Hu. simpl in Hu. subst new.
        apply Hnew. exists (TypeOfSpecificAnimal.mk old). split; [|done].
        apply list_elem_of_lookup. eauto.
      - rewrite list_lookup_insert_ne in Hj by done.
        assert (u = TypeOfSpecificAnimal.mk old) as ->.
        { destruct u. unfold has_type in Hu. simpl in Hu. by subst. }
        apply Hji.
        by apply (NoDup_lookup l j i (TypeOfSpecificAnimal.mk old) Hdup). }
    rewrite (change_animal_type_old_only
               new old
               (with_animal_types (<[i := TypeOfSpecificAnimal.mk new]> l) self)
               i (TypeOfSpecificAnimal.mk new) Hback Hnoold).
    simpl.
    rewrite with_animal_types_twice, list_insert_insert_eq.
    rewrite list_insert_id by done. subst l.
    by rewrite with_animal_types_same.
  - by rewrite (change_animal_type_new_only _ _ _ Hold Hnew).
  - by rewrite (change_animal_type_neither _ _ _ Hold Hnew).
Qed.

Lemma change_animal_type_round_trip_witness :
  Animal.change_animal_type 3 1 (with_animal_types [tag 3; tag 2] traveller)
  = (inr (), traveller).
Proof.
  assert (Hdup : NoDup (Animal.animal_types traveller)).
  { apply list.NoDup_cons. split; [by intros [=]%list_elem_of_singleton|].
    apply NoDup_singleton. }
  exact (change_animal_type_round_trip
           traveller (with_animal_types [tag 3; tag 2] traveller) 1 3
           Hdup eq_refl).
Defined.

(** ** The first visited location is never the chip-in location *)

Lemma with_visited_locations_same self :
  with_visited_locations (Animal.visited_locations self) self = self.
Proof. by destruct self. Qed.

(** X7: when the first visited location is not at the chip-in location, this
    is still so after a successful [add_visited_location] or
    [change_visited_location], and after a successful
    [delete_visited_location] on a list without two adjacent entries at one
    point. *)
Theorem first_visit_never_at_chip (self self' : Animal.t) :
  let chip := Animal.chipping_location_id self in
  let l := Animal.visited_locations self in
  first_not_chip chip l →
  (∀ now p, Animal.add_visited_location now p self = (inr (), self') →
            first_not_chip chip (Animal.visited_locations self'))
  ∧ (∀ k p r, Animal.change_visited_location k p self = (inr r, self') →
              first_not_chip chip (Animal.visited_locations self'))
  ∧ (no_adjacent_duplicates l →
     ∀ k, Animal.delete_visited_location k self = (inr (), self') →
          first_not_chip chip (Animal.visited_locations self')).
Proof.
  intros chip l Hfirst. split; [|split].
  - intros now p. rewrite add_visited_location_run. fold l chip.
    assert (Hadded : chip ≠ p →
              first_not_chip chip (l ++ [AnimalVisitedLocation.create p now])).
    { intros Hchip v. destruct l as [|w l']; simpl.
      - intros [= <-]. simpl. congruence.
      - intros [= <-]. by apply Hfirst. }
    outcomes; intros [= <-]; by apply Hadded.
  - intros k p r.
    destruct (first_such_total (has_id k) l) as [Hno|(i & v & Hf)].
    + by rewrite (change_visited_location_absent _ _ _ Hno).
    + pose proof (first_such_lt _ _ _ _ Hf) as Hlt.
      rewrite (change_visited_location_found _ _ _ _ _ Hf). fold l chip.
      cbv zeta.
      assert (Hchanged : ¬ (i = 0%nat ∧ p = chip) →
                first_not_chip chip (<[i := AnimalVisitedLocation.update p v]> l)).
      { intros Hguard w. destruct i as [|i].
        - rewrite list_lookup_insert_eq by done. intros [= <-]. simpl.
          intros Hp. by apply Hguard.
        - rewrite list_lookup_insert_ne by done. apply Hfirst. }
      outcomes; intros [= <- <-]; simpl; apply Hchanged; lia.
  - intros Hadjacent k.
    destruct (first_such_total (has_id k) l) as [Hno|(i & v & Hf)].
    + by rewrite (delete_visited_location_absent _ _ Hno).
    + rewrite (delete_visited_location_found _ _ _ _ Hf). fold l chip.
      intros [= <-]. simpl. unfold without_visit.
      destruct i as [|i].
      * destruct (l !! 1%nat) as [w|] eqn:Hw.
        -- case_decide as Hchip.
           ++ intros u. rewrite lookup_drop. simpl. intros Hu.
              rewrite <- Hchip. intros Heq.
              by apply (Hadjacent 1%nat w u Hw Hu).
           ++ intros u. rewrite list_lookup_delete_ge by lia.
              rewrite Hw. by intros [= <-].
        -- intros u. rewrite list_lookup_delete_ge by lia. by rewrite Hw.
      * intros u. rewrite list_lookup_delete_lt by lia. apply Hfirst.
Qed.

Lemma first_visit_never_at_chip_witness :
  first_not_chip
    5 [visit 1 7; visit 2 8; visit 3 9; AnimalVisitedLocation.mk None 6 55]
  ∧ first_not_chip 5 [visit 1 6; visit 2 8; visit 3 9]
  ∧ first_not_chip 5 [visit 2 8; visit 3 9].
Proof.
  assert (Hfirst : first_not_chip (Animal.chipping_location_id traveller)
                                  (Animal.visited_locations traveller)).
  { intros v [= <-]. discriminate. }
  assert (Hroute : no_adjacent_duplicates (Animal.visited_locations traveller)).
  { intros [|[|[|i]]] v w Hv Hw; simplify_eq/=; discriminate. }
  split; [|split].
  - destruct (first_visit_never_at_chip
                traveller
                (with_visited_locations
                   [visit 1 7; visit 2 8; visit 3 9;
                    AnimalVisitedLocation.mk None 6 55] traveller)
                Hfirst) as (Hadd & _).
    by apply (Hadd 55 6).
  - destruct (first_visit_never_at_chip
                traveller
                (with_visited_locations [visit 1 6; visit 2 8; visit 3 9]
                                        traveller)
                Hfirst) as (_ & Hchange & _).
    by apply (Hchange 1 6 (visit 1 6)).
  - destruct (first_visit_never_at_chip
                traveller
                (with_visited_locations [visit 2 8; visit 3 9] traveller)
                Hfirst) as (_ & _ & Hdelete).
    by apply (Hdelete Hroute 1).
Defined.

(** ** What a method can raise *)

(** X8: whatever one of the six mutating methods raises is a domain error
    carrying the id of the animal: the list primitives the methods use never
    raise their own [ValueError] or [IndexError]. *)
Theorem only_domain_errors (self self' : Animal.t) (e : Exception) :
  let raised := ∃ d, e = Domain d ∧ error_animal d = Animal.id self in
  (∀ k, Animal.add_animal_type k self = (inl e, self') → raised)
  ∧ (∀ now p, Animal.add_visited_location now p self = (inl e, self') → raised)
  ∧ (∀ old new, Animal.change_animal_type old new self = (inl e, self') → raised)
  ∧ (∀ k p, Animal.change_visited_location k p self = (inl e, self') → raised)
  ∧ (∀ k, Animal.delete_visited_location k self = (inl e, self') → raised)
  ∧ (∀ k, Animal.delete_animal_type k self = (inl e, self') → raised).
Proof.
  intros raised. subst raised. split; [|split; [|split; [|split; [|split]]]].
  - intros k. rewrite add_animal_type_run. outcomes. intros [= <- _]. eauto.
  - intros now p. rewrite add_visited_location_run.
    outcomes; intros [= <- _]; eauto.
  - intros old new.
    destruct (has_tag_or_not old (Animal.animal_types self)) as [Hold|Hold],
             (has_tag_or_not new (Animal.animal_types self)) as [Hnew|Hnew].
    + rewrite (change_animal_type_both _ _ _ Hold Hnew). intros [= <- _]. eauto.
    + apply has_tag_first in Hold as (i & t & Hf).
      by rewrite (change_animal_type_old_only _ _ _ _ _ Hf Hnew).
    + rewrite (change_animal_type_new_only _ _ _ Hold Hnew).
      intros [= <- _]. eauto.
    + rewrite (change_animal_type_neither _ _ _ Hold Hnew).
      intros [= <- _]. eauto.
  - intros k p.
    destruct (first_such_total (has_id k) (Animal.visited_locations self))
      as [Hno|(i & v & Hf)].
    + rewrite (change_visited_location_absent _ _ _ Hno). intros [= <- _]. eauto.
    + pose proof (first_such_lt _ _ _ _ Hf) as Hlt.
      rewrite (change_visited_location_found _ _ _ _ _ Hf). cbv zeta.
      case_decide as Hsame; [intros [= <- _]; eauto|].
      case_decide as Hmid.
      * destruct (lookup_lt_is_Some_2 (Animal.visited_locations self) (S i))
          as [next_element ->]; [lia|].
        destruct (lookup_lt_is_Some_2 (Animal.visited_locations self) (pred i))
          as [previous_element ->]; [lia|].
        case_decide; [intros [= <- _]; eauto|done].
      * case_decide; [intros [= <- _]; eauto|done].
  - intros k.
    destruct (first_such_total (has_id k) (Animal.visited_locations self))
      as [Hno|(i & v & Hf)].
    + rewrite (delete_visited_location_absent _ _ Hno). intros [= <- _]. eauto.
    + by rewrite (delete_visited_location_found _ _ _ _ Hf).
  - intros k.
    destruct (has_tag_or_not k (Animal.animal_types self)) as [Hk|Hk].
    + apply has_tag_first in Hk as (i & t & Hf).
      rewrite (delete_animal_type_found _ _ _ _ Hf).
      case_decide; [intros [= <- _]; eauto|done].
    + rewrite (delete_animal_type_absent _ _ Hk). intros [= <- _]. eauto.
Qed.

Lemma only_domain_errors_witness :
  (∃ d, Domain (NextOfPreviousEqualThisLocation (Some 1) 8) = Domain d
        ∧ error_animal d = Some 1)
  ∧ (∃ d, Domain (AnimalNotHaveThisType (Some 1) 3) = Domain d
          ∧ error_animal d = Some 1).
Proof.
  split.
  - destruct (only_domain_errors
                traveller traveller
                (Domain (NextOfPreviousEqualThisLocation (Some 1) 8)))
      as (_ & _ & _ & Hchange & _).
    by apply (Hchange 2 9).
  - destruct (only_domain_errors
                traveller traveller (Domain (AnimalNotHaveThisType (Some 1) 3)))
      as (_ & _ & _ & _ & _ & Hdelete).
    by apply (Hdelete 3).
Defined.

(** ** Calls in a row *)

Lemma elem_of_without_visit chip i l w :
  w ∈ without_visit chip i l → ∃ j, j ≠ i ∧ l !! j = Some w.
Proof.
  unfold without_visit. intros Hw.
  assert (Hdrop : w ∈ drop 2 l → ∃ j, j ≠ 0%nat ∧ l !! j = Some w).
  { intros [j Hj]%list_elem_of_lookup. rewrite lookup_drop in Hj.
    exists (2 + j)%nat. split; [lia|done]. }
  destruct i as [|i]; [|by apply elem_of_delete_lookup].
  destruct (l !! 1%nat); [|by apply elem_of_delete_lookup].
  case_decide; [by apply Hdrop|by apply elem_of_delete_lookup].
Qed.

(** X9: when at most one entry carries the id [k], a successful
    [delete_visited_location k] leaves no entry with that id: the same call
    once more raises [AnimalHasNoCurrentVisitedLocation], and so does
    [change_visited_location k]. *)
Theorem delete_visited_location_forgets (self self' : Animal.t) (k : Z) :
  id_at_most_once k (Animal.visited_locations self) →
  Animal.delete_visited_location k self = (inr (), self') →
  (∀ w, w ∈ Animal.visited_locations self' → ¬ has_id k w)
  ∧ Animal.delete_visited_location k self'
    = (inl (Domain (AnimalHasNoCurrentVisitedLocation (Animal.id self') k)),
       self')
  ∧ ∀ p, Animal.change_visited_location k p self'
         = (inl (Domain (AnimalHasNoCurrentVisitedLocation (Animal.id self') k)),
            self').
Proof.
  intros Honce.
  destruct (first_such_total (has_id k) (Animal.visited_locations self))
    as [Hno|(i & v & Hf)];
    [by rewrite (delete_visited_location_absent _ _ Hno)|].
  rewrite (delete_visited_location_found _ _ _ _ Hf). intros [= <-].
  assert (Hgone : ∀ w, w ∈ Animal.visited_locations
                             (with_visited_locations
                                (without_visit (Animal.chipping_location_id self) i
                                               (Animal.visited_locations self))
                                self) →
                       ¬ has_id k w).
  { simpl. intros w (j & Hji & Hj)%elem_of_without_visit Hk.
    destruct Hf as (Hi & Hv & _). apply Hji. by apply (Honce j i w v). }
  split; [done|]. split.
  - by apply delete_visited_location_absent.
  - intros p. by apply change_visited_location_absent.
Qed.

Lemma delete_visited_location_forgets_witness :
  Animal.delete_visited_location
    2 (with_visited_locations [visit 1 7; visit 3 9] traveller)
  = (inl (Domain (AnimalHasNoCurrentVisitedLocation (Some 1) 2)),
     with_visited_locations [visit 1 7; visit 3 9] traveller).
Proof.
  assert (Honce : id_at_most_once 2 (Animal.visited_locations traveller)).
  { intros [|[|[|i]]] [|[|[|j]]] v w Hv Hw Hkv Hkw; simplify_eq/=;
      done || discriminate. }
  destruct (delete_visited_location_forgets
              traveller (with_visited_locations [visit 1 7; visit 3 9] traveller)
              2 Honce eq_refl) as (_ & Hagain & _).
  exact Hagain.
Defined.

(** X10: a successful [delete_visited_location] only takes entries away: the
    list that is left is the old one with one or two entries struck out, the
    others unchanged and in the same order. *)
Theorem delete_visited_location_strikes_out (self self' : Animal.t) (k : Z) :
  Animal.delete_visited_location k self = (inr (), self') →
  Animal.visited_locations self' `sublist_of` Animal.visited_locations self
  ∧ (length (Animal.visited_locations self')
     < length (Animal.visited_locations self)
     ≤ length (Animal.visited_locations self') + 2)%nat.
Proof.
  destruct (first_such_total (has_id k) (Animal.visited_locations self))
    as [Hno|(i & v & Hf)];
    [by rewrite (delete_visited_location_absent _ _ Hno)|].
  pose proof (first_such_lt _ _ _ _ Hf) as Hlt.
  rewrite (delete_visited_location_found _ _ _ _ Hf). intros [= <-]. simpl.
  set (l := Animal.visited_locations self) in *.
  assert (Hdelete : ∀ n, (n < length l)%nat →
            delete n l `sublist_of` l
            ∧ (length (delete n l) < length l ≤ length (delete n l) + 2)%nat).
  { intros n Hn. split; [apply sublist_delete|].
    rewrite length_delete by by apply lookup_lt_is_Some_2. lia. }
  unfold without_visit. destruct i as [|i]; [|by apply Hdelete].
  destruct (l !! 1%nat) as [w|] eqn:Hw; [|by apply Hdelete].
  case_decide; [|by apply Hdelete].
  apply lookup_lt_Some in Hw. split; [apply sublist_drop|].
  rewrite length_drop. lia.
Qed.

Lemma delete_visited_location_strikes_out_witness :
  [visit 1 7; visit 3 9] `sublist_of` [visit 1 7; visit 2 8; visit 3 9].
Proof.
  apply (delete_visited_location_strikes_out
           traveller (with_visited_locations [visit 1 7; visit 3 9] traveller) 2).
  reflexivity.
Defined.

(** X11: a successful [change_visited_location k p] cannot be repeated: the
    entry keeps its id and its place, so the same call once more raises
    [UpdateToSameLocationPoint]. *)
Theorem change_visited_location_once (self self' : Animal.t) (k p : Z)
    (r : AnimalVisitedLocation.t) :
  Animal.change_visited_location k p self = (inr r, self') →
  Animal.change_visited_location k p self'
  = (inl (Domain (UpdateToSameLocationPoint (Animal.id self') p)), self').
Proof.
  destruct (first_such_total (has_id k) (Animal.visited_locations self))
    as [Hno|(i & v & Hf)];
    [by rewrite (change_visited_location_absent _ _ _ Hno)|].
  pose proof (first_such_lt _ _ _ _ Hf) as Hlt.
  intros Hrun.
  assert (self' = with_visited_locations
                    (<[i := AnimalVisitedLocation.update p v]>
                       (Animal.visited_locations self)) self) as ->.
  { revert Hrun. rewrite (change_visited_location_found _ _ _ _ _ Hf).
    cbv zeta. outcomes; by intros [= _ <-]. }
  assert (Hagain : first_such (has_id k)
                     (<[i := AnimalVisitedLocation.update p v]>
                        (Animal.visited_locations self))
                     i (AnimalVisitedLocation.update p v)).
  { destruct Hf as (Hi & Hv & Hbefore).
    split; [by apply list_lookup_insert_eq|]. split; [done|].
    intros j w Hj Hw. rewrite list_lookup_insert_ne in Hw by lia.
    by apply (Hbefore j). }
  rewrite (change_visited_location_found
             k p (with_visited_locations _ self) i
             (AnimalVisitedLocation.update p v) Hagain).
  cbv zeta. by rewrite decide_True.
Qed.

Lemma change_visited_location_once_witness :
  Animal.change_visited_location
    2 6 (with_visited_locations [visit 1 7; visit 2 6; visit 3 9] traveller)
  = (inl (Domain (UpdateToSameLocationPoint (Some 1) 6)),
     with_visited_locations [visit 1 7; visit 2 6; visit 3 9] traveller).
Proof.
  apply (change_visited_location_once
           traveller
           (with_visited_locations [visit 1 7; visit 2 6; visit 3 9] traveller)
           2 6 (visit 2 6)).
  reflexivity.
Defined.

(** X12: after a successful [add_visited_location p] the animal is at [p]:
    adding [p] once more raises [AnimalNowInThisPoint], whatever the time. *)
Theorem add_visited_location_once (self self' : Animal.t) (now now' : datetime)
    (p : Z) :
  Animal.add_visited_location now p self = (inr (), self') →
  Animal.add_visited_location now' p self'
  = (inl (Domain (AnimalNowInThisPoint (Animal.id self') p)), self').
Proof.
  intros Hrun.
  assert (Animal.life_status self ≠ Some DEAD
          ∧ Animal.chipping_location_id self ≠ p
          ∧ self' = with_visited_locations
                      (Animal.visited_locations self
                         ++ [AnimalVisitedLocation.create p now]) self)
    as (Hlive & Hchip & ->).
  { revert Hrun. rewrite add_visited_location_run.
    outcomes; by intros [= <-]. }
  rewrite add_visited_location_run. simpl.
  rewrite !decide_False by done. rewrite last_snoc. simpl.
  by rewrite decide_True.
Qed.

Lemma add_visited_location_once_witness :
  Animal.add_visited_location
    56 6
    (with_visited_locations
       [visit 1 7; visit 2 8; visit 3 9; AnimalVisitedLocation.mk None 6 55]
       traveller)
  = (inl (Domain (AnimalNowInThisPoint (Some 1) 6)),
     with_visited_locations
       [visit 1 7; visit 2 8; visit 3 9; AnimalVisitedLocation.mk None 6 55]
       traveller).
Proof.
  apply (add_visited_location_once
           traveller
           (with_visited_locations
              [visit 1 7; visit 2 8; visit 3 9;
               AnimalVisitedLocation.mk None 6 55] traveller)
           55 56 6).
  reflexivity.
Defined.

(** ** What a method leaves alone *)

(** X13: whatever their outcome, the three methods on visited locations
    change no field of the animal but [visited_locations], and the three
    methods on tags change no field but [animal_types]. *)
Theorem methods_keep_to_their_list (self self' : Animal.t) :
  (∀ now p o, Animal.add_visited_location now p self = (o, self') →
              self' = with_visited_locations (Animal.visited_locations self') self)
  ∧ (∀ k p o, Animal.change_visited_location k p self = (o, self') →
              self' = with_visited_locations (Animal.visited_locations self') self)
  ∧ (∀ k o, Animal.delete_visited_location k self = (o, self') →
            self' = with_visited_locations (Animal.visited_locations self') self)
  ∧ (∀ k o, Animal.add_animal_type k self = (o, self') →
            self' = with_animal_types (Animal.animal_types self') self)
  ∧ (∀ old new o, Animal.change_animal_type old new self = (o, self') →
                  self' = with_animal_types (Animal.animal_types self') self)
  ∧ (∀ k o, Animal.delete_animal_type k self = (o, self') →
            self' = with_animal_types (Animal.animal_types self') self).
Proof.
  pose proof (with_visited_locations_same self) as Hvisited.
  pose proof (with_animal_types_same self) as Htypes.
  split; [|split; [|split; [|split; [|split]]]].
  - intros now p o. rewrite add_visited_location_run.
    outcomes; by intros [= _ <-].
  - intros k p o.
    destruct (first_such_total (has_id k) (Animal.visited_locations self))
      as [Hno|(i & v & Hf)].
    + rewrite (change_visited_location_absent _ _ _ Hno). by intros [= _ <-].
    + rewrite (change_visited_location_found _ _ _ _ _ Hf). cbv zeta.
      outcomes; by intros [= _ <-].
  - intros k o.
    destruct (first_such_total (has_id k) (Animal.visited_locations self))
      as [Hno|(i & v & Hf)].
    + rewrite (delete_visited_location_absent _ _ Hno). by intros [= _ <-].
    + rewrite (delete_visited_location_found _ _ _ _ Hf). by intros [= _ <-].
  - intros k o. rewrite add_animal_type_run. outcomes; by intros [= _ <-].
  - intros old new o.
    destruct (has_tag_or_not old (Animal.animal_types self)) as [Hold|Hold],
             (has_tag_or_not new (Animal.animal_types self)) as [Hnew|Hnew].
    + rewrite (change_animal_type_both _ _ _ Hold Hnew). by intros [= _ <-].
    + apply has_tag_first in Hold as (i & t & Hf).
      rewrite (change_animal_type_old_only _ _ _ _ _ Hf Hnew).
      by intros [= _ <-].
    + rewrite (change_animal_type_new_only _ _ _ Hold Hnew). by intros [= _ <-].
    + rewrite (change_animal_type_neither _ _ _ Hold Hnew). by intros [= _ <-].
  - intros k o.
    destruct (has_tag_or_not k (Animal.animal_types self)) as [Hk|Hk].
    + apply has_tag_first in Hk as (i & t & Hf).
      rewrite (delete_animal_type_found _ _ _ _ Hf).
      outcomes; by intros [= _ <-].
    + rewrite (delete_animal_type_absent _ _ Hk). by intros [= _ <-].
Qed.

Lemma methods_keep_to_their_list_witness :
  snd (Animal.delete_visited_location 1 returned)
  = with_visited_locations [] returned
  ∧ snd (Animal.delete_animal_type 2 traveller)
    = with_animal_types [tag 1] traveller.
Proof.
  split.
  - destruct (methods_keep_to_their_list
                returned (snd (Animal.delete_visited_location 1 returned)))
      as (_ & _ & Hdelete & _).
    apply (Hdelete 1 (inr ())). reflexivity.
  - destruct (methods_keep_to_their_list
                traveller (snd (Animal.delete_animal_type 2 traveller)))
      as (_ & _ & _ & _ & _ & Hdelete).
    apply (Hdelete 2 (inr ())). reflexivity.
Defined.

(** * Properties of the mapper *)

Section MapperFacts.
Context `{Converter.Interface}.
Implicit Types (self : Mapper.t) (converter : Converter.t).

Lemma _get_converter_app from_model to_model self (added : Mapper.t) :
  Mapper._get_converter from_model to_model (self ++ added)
  = match Mapper._get_converter from_model to_model self with
    | Some converter => Some converter
    | None => Mapper._get_converter from_model to_model added
    end.
Proof.
  induction self as [|converter self IH]; simpl; [done|].
  by destruct (Converter.check converter from_model to_model).
Qed.


End MapperFacts.



(** X15: adding a converter never changes an answer the mapper already
    gives. A request the mapper had no converter for is served by the new
    converter when it accepts it, and is still answered [None] otherwise. *)
Theorem mapper_load_after_add `{Converter.Interface} (self : Mapper.t)
    (from_model to_model class_ : Converter.Model) (func : Converter.Callable)
    (data : Converter.Object) :
  Mapper.load class_ data (Mapper.add from_model to_model func self)
  = match Mapper.load class_ data self with
    | Some converted => Some converted
    | None =>
        let added := Converter.init from_model to_model func in
        if Converter.check added (Converter.type_of data) class_
        then Some (Converter.convert added data)
        else None
    end.
Proof.
  unfold Mapper.load, Mapper.add. rewrite _get_converter_app.
  destruct (Mapper._get_converter (Converter.type_of data) class_ self);
    [done|].
  simpl.
  by destruct (Converter.check (Converter.init from_model to_model func)
                               (Converter.type_of data) class_).
Qed.

(** * Properties of the error parser *)

Section ErrorParserFacts.
Context `{ExceptionReturner.Interface}.
Implicit Types (self : ErrorParser.t) (returner : ExceptionReturner.t).

Lemma _get_returner_app entity database_column self (added : ErrorParser.t) :
  ErrorParser._get_returner entity database_column (self ++ added)
  = match ErrorParser._get_returner entity database_column self with
    | Some returner => Some returner
    | None => ErrorParser._get_returner entity database_column added
    end.
Proof.
  induction self as [|returner self IH]; simpl; [done|].
  by destruct (ExceptionReturner.check returner database_column entity).
Qed.

Lemma _get_returner_first entity database_column self i returner :
  first_such (λ r, ExceptionReturner.check r database_column entity = true)
             self i returner →
  ErrorParser._get_returner entity database_column self = Some returner.
Proof.
  revert i. induction self as [|r self IH]; intros i Hf.
  - by destruct Hf as (? & _).
  - destruct i as [|i]; simpl.
    + destruct Hf as (Hi & Hr & _). simplify_eq/=. by rewrite Hr.
    + apply first_such_tail in Hf as (Hr & Hf).
      destruct (ExceptionReturner.check r database_column entity); [done|].
      by apply (IH i).
Qed.

Lemma _get_returner_accepts entity database_column self returner :
  ErrorParser._get_returner entity database_column self = Some returner →
  returner ∈ self
  ∧ ExceptionReturner.check returner database_column entity = true.
Proof.
  induction self as [|r self IH]; simpl; [done|].
  destruct (ExceptionReturner.check r database_column entity) eqn:Hr.
  - intros [= <-]. split; [left|done].
  - intros [Hin Hcheck]%IH. split; [by right|done].
Qed.

Lemma _get_returner_None entity database_column self :
  ErrorParser._get_returner entity database_column self = None
  ↔ ∀ r, r ∈ self → ExceptionReturner.check r database_column entity = false.
Proof.
  induction self as [|r self IH]; simpl.
  - split; [|done]. intros _ r Hr. by apply not_elem_of_nil in Hr.
  - destruct (ExceptionReturner.check r database_column entity) eqn:Hr.
    + split; [done|]. intros Hno. rewrite Hno in Hr; [done|left].
    + rewrite IH. split.
      * intros Hno r' [->|Hr']%elem_of_cons; auto.
      * intros Hno r' Hr'. apply Hno. by right.
Qed.
End ErrorParserFacts.

(** X16: [parse_error] ends in an [AttributeError] exactly when the
    exception has no constraint name to read or no returner of the parser
    accepts that name for the type of the entity; otherwise it returns what
    the returner that was added first among the accepting ones returns. *)
Theorem parse_error_first_added `{ExceptionReturner.Interface}
    (self : ErrorParser.t) (entity : ExceptionReturner.Entity)
    (exception : ExceptionReturner.IntegrityError) :
  let accepts database_column r :=
    ExceptionReturner.check r database_column
                            (ExceptionReturner.type_of entity) = true in
  (ErrorParser.parse_error entity exception self = ErrorParser.AttributeError
   ↔ ∀ database_column,
       ExceptionReturner.constraint_name exception = Some database_column →
       ∀ r, r ∈ self → ¬ accepts database_column r)
  ∧ (∀ database_column i r,
       ExceptionReturner.constraint_name exception = Some database_column →
       first_such (accepts database_column) self i r →
       ErrorParser.parse_error entity exception self
       = ErrorParser.Return (ExceptionReturner.return_exception r entity)).
Proof.
  intros accepts. unfold ErrorParser.parse_error. split.
  - destruct (ExceptionReturner.constraint_name exception)
      as [database_column|]; [|done].
    destruct (ErrorParser._get_returner (ExceptionReturner.type_of entity)
                                        database_column self)
      as [returner|] eqn:Hget.
    + split; [done|]. intros Hno. exfalso.
      apply _get_returner_accepts in Hget as [Hin Hcheck].
      by apply (Hno database_column eq_refl returner).
    + split; [|done]. intros _ column [= <-] r Hr. subst accepts. simpl.
      rewrite _get_returner_None in Hget. by rewrite (Hget r Hr).
  - intros database_column i r -> Hf.
    by rewrite (_get_returner_first _ _ _ _ _ Hf).
Qed.

Lemma parse_error_first_added_witness :
  ErrorParser.parse_error (H := plain_returners) (1%nat, 5) (Some 7%nat)
                          [(Z.succ, 8%nat, 1%nat); (Z.opp, 7%nat, 1%nat);
                           (Z.pred, 7%nat, 1%nat)]
  = ErrorParser.Return (H := plain_returners) (-5)
  ∧ ErrorParser.parse_error (H := plain_returners) (1%nat, 5) (Some 9%nat)
                            [(Z.succ, 8%nat, 1%nat); (Z.opp, 7%nat, 1%nat)]
    = ErrorParser.AttributeError.
Proof.
  split.
  - destruct (parse_error_first_added (H := plain_returners)
                [(Z.succ, 8%nat, 1%nat); (Z.opp, 7%nat, 1%nat);
                 (Z.pred, 7%nat, 1%nat)]
                (1%nat, 5) (Some 7%nat)) as [_ Hfirst].
    apply (Hfirst 7%nat 1%nat (Z.opp, 7%nat, 1%nat)); [reflexivity|].
    split; [reflexivity|]. split; [reflexivity|].
    intros [|j] r Hj Hr; [|lia]. simplify_eq/=. discriminate.
  - destruct (parse_error_first_added (H := plain_returners)
                [(Z.succ, 8%nat, 1%nat); (Z.opp, 7%nat, 1%nat)]
                (1%nat, 5) (Some 9%nat)) as [Hnone _].
    apply Hnone. intros database_column [= <-] r Hr%list_elem_of_In.
    simpl in Hr. destruct Hr as [<-|[<-|[]]]; discriminate.
Defined.

(** X17: adding an exception returner never changes what [parse_error]
    already returns. An error the parser ended in [AttributeError] for is
    handled by the new returner when the exception has a constraint name
    and the returner accepts it for the type of the entity, and still ends
    in [AttributeError] otherwise. *)
Theorem parse_error_after_add `{ExceptionReturner.Interface}
    (self : ErrorParser.t) (entity_type : ExceptionReturner.EntityType)
    (func : ExceptionReturner.Callable)
    (database_column : ExceptionReturner.Column)
    (entity : ExceptionReturner.Entity)
    (exception : ExceptionReturner.IntegrityError) :
  ErrorParser.parse_error
    entity exception
    (ErrorParser.add_exception_returner entity_type func database_column self)
  = match ErrorParser.parse_error entity exception self with
    | ErrorParser.Return r => ErrorParser.Return r
    | ErrorParser.AttributeError =>
        let added := ExceptionReturner.init func database_column entity_type in
        match ExceptionReturner.constraint_name exception with
        | Some column =>
            if ExceptionReturner.check added column
                                       (ExceptionReturner.type_of entity)
            then ErrorParser.Return
                   (ExceptionReturner.return_exception added entity)
            else ErrorParser.AttributeError
        | None => ErrorParser.AttributeError
        end
    end.
Proof.
  unfold ErrorParser.parse_error, ErrorParser.add_exception_returner.
  destruct (ExceptionReturner.constraint_name exception) as [column|]; [|done].
  rewrite _get_returner_app.
  destruct (ErrorParser._get_returner (ExceptionReturner.type_of entity)
                                      column self); [done|].
  simpl.
  by destruct (ExceptionReturner.check
                 (ExceptionReturner.init func database_column entity_type)
                 column (ExceptionReturner.type_of entity)).
Qed.
